(** * bdl-ts: the IR builder ([src/bdl-ts/src/ir-builder.ts])

    A shallow embedding of [buildBdlIr] and of the functions it calls,
    followed by the properties of the module traversal, of the symbol
    resolver and of the definition builders.

    Conventions of the embedding.
    - A JavaScript [Set<string>] is a [gset string]; an object literal
      used as a dictionary ([asts], [ir.modules], [ir.defs],
      [importedNames]) is the [gmap] of its own properties, and the
      assignment [obj[k] = v] is [<[k:=v]>].  Reading such an object with
      [k in obj] and [obj[k]] also sees what the object inherits from
      [Object.prototype]; that is written out in [prototype_lookup].
      The sources import their modules by file name, [.ts] extension
      included, as Deno has it; under Deno an assignment to the key
      [__proto__] of such an object defines an own property, as for any
      other key, while ["__proto__" in obj] holds of every object, as
      for the other names of [Object.prototype].  The order in which
      the keys of an object were inserted is not part of a [gmap]: the
      properties below compare the entries of the objects, key by key.
    - [undefined] in an optional position is [None].
    - The module-resolution capability and the parser are functions that
      return a value or an exception.  A thrown exception (a rejected
      promise) ends a call with [Threw e].
    - The generator [gather] is the list of the module files it yields;
      the body of the [for await] loop of [buildBdlIr] does not touch
      the state of the generator, so that running it between two yields
      or after the last one builds the same result.  The loop of
      [gather] runs on fuel, and [OutOfFuel] stands for a run that has
      not finished within the given number of iterations.
    - [ast.ts], [ast-utils.ts] and the parser are not part of the sources
      at hand: the syntax tree records carry the fields that
      [ir-builder.ts] reads, and the helper functions are parameters. *)

From stdpp Require Import gmap strings list fin_maps.

#[local] Set Warnings "-clear-no-such-hyp".

(** ** Syntax trees, as far as [ir-builder.ts] reads them *)

Module ast.

Record Span := { start : nat; end_ : nat }.

Record Attribute := { id : Span; content : option Span }.

Record Container := { keyType : option Span }.

Record TypeExpression :=
  { valueType : Span; container : option Container }.

Record ImportAlias := { alias_name : Span }.

Record ImportItem :=
  { item_name : Span; alias : option ImportAlias }.

Record Import :=
  { import_attributes : list Attribute;
    path : list Span;
    import_items : list ImportItem }.

Record EnumItem :=
  { enum_item_attributes : list Attribute; enum_item_name : Span }.

Record Enum :=
  { enum_attributes : list Attribute;
    enum_name : Span;
    enum_items : list EnumItem }.

Record RpcItemError := { errorType : TypeExpression }.

Record RpcItem :=
  { rpc_item_attributes : list Attribute;
    rpc_item_name : Span;
    inputType : TypeExpression;
    outputType : TypeExpression;
    error : option RpcItemError }.

Record Rpc :=
  { rpc_attributes : list Attribute;
    rpc_name : Span;
    rpc_items : list RpcItem }.

Record Scalar :=
  { scalar_attributes : list Attribute;
    scalar_name : Span;
    scalarType : TypeExpression }.

Record SocketItem :=
  { socket_item_attributes : list Attribute;
    sender : Span;
    receiver : Span;
    messageType : TypeExpression }.

Record Socket :=
  { socket_attributes : list Attribute;
    socket_name : Span;
    socket_items : list SocketItem }.

Record StructField :=
  { field_attributes : list Attribute;
    field_name : Span;
    question : option Span;
    itemType : TypeExpression }.

Record Struct :=
  { struct_attributes : list Attribute;
    struct_name : Span;
    fields : list StructField }.

Record UnionItemStruct := { struct_fields : list StructField }.

Record UnionItem :=
  { union_item_attributes : list Attribute;
    union_item_name : Span;
    struct : option UnionItemStruct }.

Record Union :=
  { union_attributes : list Attribute;
    union_name : Span;
    union_items : list UnionItem }.

(** The tagged union [ModuleLevelStatement]; the constructor is the
    [type] tag. *)
Inductive ModuleLevelStatement :=
| EnumStatement (s : Enum)
| ImportStatement (s : Import)
| RpcStatement (s : Rpc)
| ScalarStatement (s : Scalar)
| SocketStatement (s : Socket)
| StructStatement (s : Struct)
| UnionStatement (s : Union).

Record BdlAst :=
  { attributes : list Attribute;
    statements : list ModuleLevelStatement }.

(** [statement.name], present on every statement but an import. *)
Definition name (s : ModuleLevelStatement) : option Span :=
  match s with
  | EnumStatement s => Some (enum_name s)
  | ImportStatement _ => None
  | RpcStatement s => Some (rpc_name s)
  | ScalarStatement s => Some (scalar_name s)
  | SocketStatement s => Some (socket_name s)
  | StructStatement s => Some (struct_name s)
  | UnionStatement s => Some (union_name s)
  end.

(** [statement.attributes]. *)
Definition statement_attributes (s : ModuleLevelStatement) : list Attribute :=
  match s with
  | EnumStatement s => enum_attributes s
  | ImportStatement s => import_attributes s
  | RpcStatement s => rpc_attributes s
  | ScalarStatement s => scalar_attributes s
  | SocketStatement s => socket_attributes s
  | StructStatement s => struct_attributes s
  | UnionStatement s => union_attributes s
  end.

End ast.

(** ** The intermediate representation built by [ir-builder.ts] *)

Module ir.

(** The value of a type path.  [ir.ts] declares it a string; at run time
    [typeNameToPath] can also hand back a member that [importedNames]
    inherits from [Object.prototype]. *)
Inductive Path :=
| Str (s : string)
| ObjectPrototypeMember (key : string).

Record Attribute := { id : string; content : string }.

Inductive Type_ :=
| Plain (valueTypePath : Path)
| Array (valueTypePath : Path)
| Dictionary (valueTypePath keyTypePath : Path).

Record ImportItem := { item_name : string; as_ : option string }.

Record Import :=
  { import_attributes : list Attribute;
    modulePath : string;
    items : list ImportItem }.

Record EnumItem :=
  { enum_item_attributes : list Attribute; enum_item_name : string }.

Record RpcItem :=
  { rpc_item_attributes : list Attribute;
    rpc_item_name : string;
    inputType : Type_;
    outputType : Type_;
    errorType : option Type_ }.

Record SocketItem :=
  { socket_item_attributes : list Attribute; messageType : Type_ }.

Record StructField :=
  { field_attributes : list Attribute;
    field_name : string;
    itemType : Type_;
    optional : bool }.

Record UnionItem :=
  { union_item_attributes : list Attribute;
    union_item_name : string;
    union_item_fields : list StructField }.

Inductive DefBody :=
| Enum (items : list EnumItem)
| Rpc (items : list RpcItem)
| Scalar (scalarType : Type_)
| Socket (serverToClient clientToServer : option SocketItem)
| Struct (fields : list StructField)
| Union (items : list UnionItem).

Record Def :=
  { attributes : list Attribute; name : string; body : DefBody }.

Record Module_ :=
  { fileUrl : option string;
    module_attributes : list Attribute;
    defPaths : list string;
    imports : list Import }.

Record BdlIr :=
  { modules : gmap string Module_; defs : gmap string Def }.

End ir.

(** ** Results of the module-resolution capability and of the build *)

Record ResolveModuleFileResult :=
  { fileUrl : option string; text : string }.

Record ModuleFile :=
  { file : ResolveModuleFileResult;
    modulePath : string;
    ast_ : ast.BdlAst }.

Record BuildBdlIrResult :=
  { asts : gmap string ast.BdlAst; ir_ : ir.BdlIr }.

(** How a call that may throw, or may still be running, ends. *)
Inductive outcome (Exn A : Type) :=
| Returned (a : A)
| Threw (e : Exn)
| OutOfFuel.

Arguments Returned {Exn A} a.
Arguments Threw {Exn A} e.
Arguments OutOfFuel {Exn A}.

(** ** Reading a dictionary object

    An object created by [{}] inherits from [Object.prototype].  These are
    the names it finds there. *)
Definition Object_prototype_keys : list string :=
  [ "constructor"; "__defineGetter__"; "__defineSetter__"; "hasOwnProperty";
    "__lookupGetter__"; "__lookupSetter__"; "isPrototypeOf";
    "propertyIsEnumerable"; "toString"; "valueOf"; "__proto__";
    "toLocaleString" ].

(** The property [key] of a dictionary object whose own properties are
    the strings of [obj]: the own property when there is one, the
    inherited member otherwise, [None] when the name is found nowhere
    on the prototype chain.  [key in obj] holds exactly when this is
    [Some _], and [obj[key]] is then that value. *)
Definition prototype_lookup (obj : gmap string string) (key : string)
  : option ir.Path :=
  match obj !! key with
  | Some v => Some (ir.Str v)
  | None =>
      if bool_decide (key ∈ Object_prototype_keys)
      then Some (ir.ObjectPrototypeMember key)
      else None
  end.

(** [queue.pop()]: the last element of the array and the array without
    it, [None] on the empty array. *)
Fixpoint pop {A} (queue : list A) : option (A * list A) :=
  match queue with
  | [] => None
  | x :: rest =>
      match pop rest with
      | None => Some (x, [])
      | Some (y, rest') => Some (y, x :: rest')
      end
  end.

(** ** The collaborators of the builder

    The helpers that [ir-builder.ts] imports from [ast-utils.ts], and the
    parser, which may throw. *)
Class AstUtils :=
  { span : string → ast.Span → string;
    pathItemsToString : string → list ast.Span → string;
    getAttributeContent : string → ast.Attribute → string;
    getImportPaths : string → ast.BdlAst → list string }.

Class BdlParser :=
  { Exn : Type;
    parseBdl : string → Exn + ast.BdlAst }.

Section Builder.

Context `{!AstUtils} `{!BdlParser}.

Record BuildBdlIrConfig :=
  { entryModulePaths : list string;
    resolveModuleFile : string → Exn + ResolveModuleFileResult }.

(** Modelled from the spec: [isImport] of [ast-utils.ts], which is not
    among the sources.  It is the type guard that recognises the import
    declarations of a module, "a seventh possible statement kind,
    Import"; the value it returns is the statement at its narrowed
    type. *)
Definition isImport (s : ast.ModuleLevelStatement) : option ast.Import :=
  match s with
  | ast.ImportStatement i => Some i
  | _ => None
  end.

Definition buildAttribute (text : string) (attribute : ast.Attribute)
  : ir.Attribute :=
  {| ir.id := span text (ast.id attribute);
     ir.content := getAttributeContent text attribute |}.

Definition buildAttributes (text : string) (attributes : list ast.Attribute)
  : list ir.Attribute :=
  map (buildAttribute text) attributes.

Definition buildImport (text : string) (importNode : ast.Import) : ir.Import :=
  {| ir.import_attributes := buildAttributes text (ast.import_attributes importNode);
     ir.modulePath := pathItemsToString text (ast.path importNode);
     ir.items :=
       map (λ item,
              {| ir.item_name := span text (ast.item_name item);
                 ir.as_ := (λ a, span text (ast.alias_name a)) <$> ast.alias item |})
           (ast.import_items importNode) |}.

Definition buildType (text : string) (type : ast.TypeExpression)
    (typeNameToPath : string → ir.Path) : ir.Type_ :=
  let valueTypePath := typeNameToPath (span text (ast.valueType type)) in
  match ast.container type with
  | None => ir.Plain valueTypePath
  | Some container =>
      match ast.keyType container with
      | None => ir.Array valueTypePath
      | Some keyType =>
          let keyTypePath := typeNameToPath (span text keyType) in
          ir.Dictionary valueTypePath keyTypePath
      end
  end.

Definition buildStructField (text : string) (field : ast.StructField)
    (typeNameToPath : string → ir.Path) : ir.StructField :=
  {| ir.field_attributes := buildAttributes text (ast.field_attributes field);
     ir.field_name := span text (ast.field_name field);
     ir.itemType := buildType text (ast.itemType field) typeNameToPath;
     ir.optional := bool_decide (is_Some (ast.question field)) |}.

Definition buildSocketItem (text : string) (item : ast.SocketItem)
    (typeNameToPath : string → ir.Path) : ir.SocketItem :=
  {| ir.socket_item_attributes :=
       buildAttributes text (ast.socket_item_attributes item);
     ir.messageType := buildType text (ast.messageType item) typeNameToPath |}.

Definition buildEnum (text : string) (statement : ast.Enum) : ir.DefBody :=
  ir.Enum
    (map (λ item,
            {| ir.enum_item_attributes :=
                 buildAttributes text (ast.enum_item_attributes item);
               ir.enum_item_name := span text (ast.enum_item_name item) |})
         (ast.enum_items statement)).

Definition buildRpc (text : string) (statement : ast.Rpc)
    (typeNameToPath : string → ir.Path) : ir.DefBody :=
  ir.Rpc
    (map (λ item,
            {| ir.rpc_item_attributes :=
                 buildAttributes text (ast.rpc_item_attributes item);
               ir.rpc_item_name := span text (ast.rpc_item_name item);
               ir.inputType := buildType text (ast.inputType item) typeNameToPath;
               ir.outputType := buildType text (ast.outputType item) typeNameToPath;
               ir.errorType :=
                 (λ e, buildType text (ast.errorType e) typeNameToPath)
                   <$> ast.error item |})
         (ast.rpc_items statement)).

Definition buildScalar (text : string) (statement : ast.Scalar)
    (typeNameToPath : string → ir.Path) : ir.DefBody :=
  ir.Scalar (buildType text (ast.scalarType statement) typeNameToPath).

(** The two predicates that [buildSocket] hands to [find]. *)
Definition is_serverToClient (text : string) (item : ast.SocketItem) : bool :=
  bool_decide (span text (ast.sender item) = "server")
  && bool_decide (span text (ast.receiver item) = "client").

Definition is_clientToServer (text : string) (item : ast.SocketItem) : bool :=
  bool_decide (span text (ast.sender item) = "client")
  && bool_decide (span text (ast.receiver item) = "server").

Definition buildSocket (text : string) (statement : ast.Socket)
    (typeNameToPath : string → ir.Path) : ir.DefBody :=
  let serverToClient :=
    List.find (is_serverToClient text) (ast.socket_items statement) in
  let clientToServer :=
    List.find (is_clientToServer text) (ast.socket_items statement) in
  ir.Socket
    ((λ item, buildSocketItem text item typeNameToPath) <$> serverToClient)
    ((λ item, buildSocketItem text item typeNameToPath) <$> clientToServer).

Definition buildStruct (text : string) (statement : ast.Struct)
    (typeNameToPath : string → ir.Path) : ir.DefBody :=
  ir.Struct
    (map (λ field, buildStructField text field typeNameToPath)
         (ast.fields statement)).

Definition buildUnion (text : string) (statement : ast.Union)
    (typeNameToPath : string → ir.Path) : ir.DefBody :=
  ir.Union
    (map (λ item,
            {| ir.union_item_attributes :=
                 buildAttributes text (ast.union_item_attributes item);
               ir.union_item_name := span text (ast.union_item_name item);
               ir.union_item_fields :=
                 match ast.struct item with
                 | Some s =>
                     map (λ field, buildStructField text field typeNameToPath)
                         (ast.struct_fields s)
                 | None => []
                 end |})
         (ast.union_items statement)).

(** The dispatch table [buildDefBodyFns]: no builder for an import. *)
Definition buildDefBodyFns (statement : ast.ModuleLevelStatement)
  : option (string → (string → ir.Path) → ir.DefBody) :=
  match statement with
  | ast.EnumStatement s => Some (λ text _, buildEnum text s)
  | ast.ImportStatement _ => None
  | ast.RpcStatement s => Some (λ text f, buildRpc text s f)
  | ast.ScalarStatement s => Some (λ text f, buildScalar text s f)
  | ast.SocketStatement s => Some (λ text f, buildSocket text s f)
  | ast.StructStatement s => Some (λ text f, buildStruct text s f)
  | ast.UnionStatement s => Some (λ text f, buildUnion text s f)
  end.

Definition buildDef (text : string) (statement : ast.ModuleLevelStatement)
    (typeNameToPath : string → ir.Path) : option ir.Def :=
  match buildDefBodyFns statement, ast.name statement with
  | Some buildDefBody, Some name =>
      Some {| ir.attributes :=
                buildAttributes text (ast.statement_attributes statement);
              ir.name := span text name;
              ir.body := buildDefBody text typeNameToPath |}
  | _, _ => None
  end.

(** *** The body of the loop of [buildBdlIr], piece by piece *)

(** The statements that have a [name]. *)
Definition defStatements (ast : ast.BdlAst) : list ast.ModuleLevelStatement :=
  filter (λ s, is_Some (ast.name s)) (ast.statements ast).

Definition localDefNames (text : string)
    (defStatements : list ast.ModuleLevelStatement) : gset string :=
  list_to_set
    (omap (λ statement, span text <$> ast.name statement) defStatements).

Definition imports (text : string) (ast : ast.BdlAst) : list ir.Import :=
  map (buildImport text) (omap isImport (ast.statements ast)).

(** The two nested loops that fill [importedNames]: an item with a
    truthy [as] binds that alias, any other item binds its name. *)
Definition importedNames (imports : list ir.Import) : gmap string string :=
  foldl
    (λ importedNames importStatement,
       foldl
         (λ importedNames importItem,
            let typePath :=
              ir.modulePath importStatement +:+ "." +:+ ir.item_name importItem in
            match ir.as_ importItem with
            | Some (String c s) => <[String c s := typePath]> importedNames
            | _ => <[ir.item_name importItem := typePath]> importedNames
            end)
         importedNames (ir.items importStatement))
    ∅ imports.

Definition typeNameToPath (modulePath : string) (localDefNames : gset string)
    (importedNames : gmap string string) (typeName : string) : ir.Path :=
  if decide (typeName ∈ localDefNames)
  then ir.Str (modulePath +:+ "." +:+ typeName)
  else
    match prototype_lookup importedNames typeName with
    | Some typePath => typePath
    | None => ir.Str typeName
    end.

(** The loop over [defStatements]: it extends [defPaths] and writes into
    the shared [ir.defs]. *)
Definition buildDefs (modulePath text : string)
    (typeNameToPath : string → ir.Path)
    (defStatements : list ast.ModuleLevelStatement)
    (defs : gmap string ir.Def) : list string * gmap string ir.Def :=
  foldl
    (λ '(defPaths, defs) statement,
       match buildDef text statement typeNameToPath with
       | None => (defPaths, defs)
       | Some def =>
           let defPath := modulePath +:+ "." +:+ ir.name def in
           (defPaths ++ [defPath], <[defPath := def]> defs)
       end)
    ([], defs) defStatements.

(** One turn of [for await (const moduleFile of gather(config))]. *)
Definition buildModule (acc : BuildBdlIrResult) (moduleFile : ModuleFile)
  : BuildBdlIrResult :=
  let fileUrl := fileUrl (file moduleFile) in
  let text := text (file moduleFile) in
  let modulePath := modulePath moduleFile in
  let ast := ast_ moduleFile in
  let asts := <[modulePath := ast]> (asts acc) in
  let attributes := buildAttributes text (ast.attributes ast) in
  let defStatements := defStatements ast in
  let localDefNames := localDefNames text defStatements in
  let imports := imports text ast in
  let importedNames := importedNames imports in
  let typeNameToPath := typeNameToPath modulePath localDefNames importedNames in
  let '(defPaths, defs) :=
    buildDefs modulePath text typeNameToPath defStatements (ir.defs (ir_ acc)) in
  let module :=
    {| ir.fileUrl := fileUrl;
       ir.module_attributes := attributes;
       ir.defPaths := defPaths;
       ir.imports := imports |} in
  {| asts := asts;
     ir_ := {| ir.modules := <[modulePath := module]> (ir.modules (ir_ acc));
               ir.defs := defs |} |}.

(** *** The traversal

    [gather_loop] is the [while (queue.length)] loop of [gather]; its
    result is the sequence of the module files it yields, one for each
    call of [resolveModuleFile] and of [parseBdl]. *)
Fixpoint gather_loop (resolveModuleFile : string → Exn + ResolveModuleFileResult)
    (fuel : nat) (queue : list string) (visited : gset string)
  : outcome Exn (list ModuleFile) :=
  match fuel with
  | 0 => OutOfFuel
  | S fuel =>
      match pop queue with
      | None => Returned []
      | Some (modulePath, queue) =>
          if decide (modulePath ∈ visited)
          then gather_loop resolveModuleFile fuel queue visited
          else
            let visited := {[modulePath]} ∪ visited in
            match resolveModuleFile modulePath with
            | inl e => Threw e
            | inr resolveModuleFileResult =>
                match parseBdl (text resolveModuleFileResult) with
                | inl e => Threw e
                | inr ast =>
                    let moduleFile :=
                      {| file := resolveModuleFileResult;
                         modulePath := modulePath;
                         ast_ := ast |} in
                    let importPaths :=
                      getImportPaths (text resolveModuleFileResult) ast in
                    match gather_loop resolveModuleFile fuel
                            (queue ++ importPaths) visited with
                    | Returned moduleFiles => Returned (moduleFile :: moduleFiles)
                    | Threw e => Threw e
                    | OutOfFuel => OutOfFuel
                    end
                end
            end
      end
  end.

Definition gather (fuel : nat) (config : BuildBdlIrConfig)
  : outcome Exn (list ModuleFile) :=
  gather_loop (resolveModuleFile config) fuel (entryModulePaths config) ∅.

Definition buildBdlIr (fuel : nat) (config : BuildBdlIrConfig)
  : outcome Exn BuildBdlIrResult :=
  let asts := ∅ in
  let ir := {| ir.modules := ∅; ir.defs := ∅ |} in
  match gather fuel config with
  | Returned moduleFiles =>
      Returned (foldl buildModule {| asts := asts; ir_ := ir |} moduleFiles)
  | Threw e => Threw e
  | OutOfFuel => OutOfFuel
  end.

End Builder.

(** ** The alias map as the specification words it

    "Alias map = union, over every import item of every import
    declaration (in declaration order, later entries overwrite earlier on
    name collision), of: declared-name -> [<importedModulePath>.<declaredName>],
    and, when an alias is present, alias -> the same target path."

    [specified_bindings] lists those bindings in declaration order;
    [specified_alias_map] lets the later ones win. *)
Definition specified_bindings (imports : list ir.Import) : list (string * string) :=
  flat_map
    (λ importStatement,
       flat_map
         (λ importItem,
            let typePath :=
              ir.modulePath importStatement +:+ "." +:+ ir.item_name importItem in
            (ir.item_name importItem, typePath)
              :: match ir.as_ importItem with
                 | Some alias => [(alias, typePath)]
                 | None => []
                 end)
         (ir.items importStatement))
    imports.

Definition specified_alias_map (imports : list ir.Import) : gmap string string :=
  list_to_map (reverse (specified_bindings imports)).

(** What the two loops of [buildBdlIr] bind instead: one name for each
    import item, its alias when it has a non-empty one and its declared
    name otherwise. *)
Definition local_name (importItem : ir.ImportItem) : string :=
  match ir.as_ importItem with
  | Some (String c s) => String c s
  | _ => ir.item_name importItem
  end.

Definition import_bindings (imports : list ir.Import) : list (string * string) :=
  flat_map
    (λ importStatement,
       map (λ importItem,
              (local_name importItem,
               ir.modulePath importStatement +:+ "." +:+ ir.item_name importItem))
           (ir.items importStatement))
    imports.

(** ** Vocabulary of the properties *)

Section Vocabulary.

Context `{!AstUtils} `{!BdlParser}.

(** The items of a socket statement that go from [sender] to
    [receiver]. *)
Definition directed (text sender receiver : string) (item : ast.SocketItem)
  : Prop :=
  span text (ast.sender item) = sender
  ∧ span text (ast.receiver item) = receiver.

(** What one turn of the traversal obtains for a module path: the
    resolved file with its parsed tree, or the exception of
    [resolveModuleFile] or of [parseBdl]. *)
Definition fetch (resolveModuleFile : string → Exn + ResolveModuleFileResult)
    (modulePath : string) : Exn + ModuleFile :=
  match resolveModuleFile modulePath with
  | inl e => inl e
  | inr resolveModuleFileResult =>
      match parseBdl (text resolveModuleFileResult) with
      | inl e => inl e
      | inr ast =>
          inr {| file := resolveModuleFileResult;
                 modulePath := modulePath;
                 ast_ := ast |}
      end
  end.

(** The module paths that a module imports, as the traversal sees them. *)
Definition module_imports
    (resolveModuleFile : string → Exn + ResolveModuleFileResult)
    (modulePath : string) : list string :=
  match fetch resolveModuleFile modulePath with
  | inr moduleFile =>
      getImportPaths (text (file moduleFile)) (ast_ moduleFile)
  | inl _ => []
  end.

(** Reachable by zero or more import hops from the seeds. *)
Inductive reachable_from
    (resolveModuleFile : string → Exn + ResolveModuleFileResult)
    (seeds : list string) : string → Prop :=
| reachable_seed p :
    p ∈ seeds → reachable_from resolveModuleFile seeds p
| reachable_hop p q :
    reachable_from resolveModuleFile seeds p →
    q ∈ module_imports resolveModuleFile p →
    reachable_from resolveModuleFile seeds q.

Definition reachable (config : BuildBdlIrConfig) : string → Prop :=
  reachable_from (resolveModuleFile config) (entryModulePaths config).

(** The names that the statements of a module declare, in declaration
    order. *)
Definition declared_names (text : string) (ast : ast.BdlAst) : list string :=
  omap (λ statement, span text <$> ast.name statement) (ast.statements ast).

(** The resolution function of a module file. *)
Definition resolver (moduleFile : ModuleFile) : string → ir.Path :=
  typeNameToPath (modulePath moduleFile)
    (localDefNames (text (file moduleFile)) (defStatements (ast_ moduleFile)))
    (importedNames (imports (text (file moduleFile)) (ast_ moduleFile))).

(** The definitions that the statements of a module file yield, in
    declaration order. *)
Definition builtDefs (moduleFile : ModuleFile) : list ir.Def :=
  omap (λ statement,
          buildDef (text (file moduleFile)) statement (resolver moduleFile))
       (defStatements (ast_ moduleFile)).

(** The definition path of a definition of a module. *)
Definition defPath (modulePath : string) (def : ir.Def) : string :=
  modulePath +:+ "." +:+ ir.name def.

(** The [Module] record that one turn of the loop of [buildBdlIr] stores
    for a module file. *)
Definition builtModule (moduleFile : ModuleFile) : ir.Module_ :=
  {| ir.fileUrl := fileUrl (file moduleFile);
     ir.module_attributes :=
       buildAttributes (text (file moduleFile))
         (ast.attributes (ast_ moduleFile));
     ir.defPaths := defPath (modulePath moduleFile) <$> builtDefs moduleFile;
     ir.imports := imports (text (file moduleFile)) (ast_ moduleFile) |}.

(** The invariant of the data model: every listed definition path is a
    key of [defs]. *)
Definition defPaths_resolve (result : BuildBdlIrResult) : Prop :=
  ∀ modulePath module defPath,
    ir.modules (ir_ result) !! modulePath = Some module →
    defPath ∈ ir.defPaths module →
    is_Some (ir.defs (ir_ result) !! defPath).

(** The entries that one turn of the loop of [buildBdlIr] writes into
    [defs] for a module file, the later definitions over the earlier
    ones. *)
Definition moduleDefs (moduleFile : ModuleFile) : gmap string ir.Def :=
  list_to_map
    (reverse ((λ def, (defPath (modulePath moduleFile) def, def))
                <$> builtDefs moduleFile)).

(** The type names that a type expression mentions. *)
Definition type_expression_names (text : string) (type : ast.TypeExpression)
  : list string :=
  span text (ast.valueType type)
    :: match ast.container type with
       | Some container =>
           match ast.keyType container with
           | Some keyType => [span text keyType]
           | None => []
           end
       | None => []
       end.

Definition field_type_names (text : string) (fields : list ast.StructField)
  : list string :=
  flat_map (λ field, type_expression_names text (ast.itemType field)) fields.

(** The type names that a statement mentions. *)
Definition type_names (text : string) (statement : ast.ModuleLevelStatement)
  : list string :=
  match statement with
  | ast.EnumStatement _ | ast.ImportStatement _ => []
  | ast.RpcStatement s =>
      flat_map
        (λ item,
           type_expression_names text (ast.inputType item)
             ++ type_expression_names text (ast.outputType item)
             ++ match ast.error item with
                | Some e => type_expression_names text (ast.errorType e)
                | None => []
                end)
        (ast.rpc_items s)
  | ast.ScalarStatement s => type_expression_names text (ast.scalarType s)
  | ast.SocketStatement s =>
      flat_map (λ item, type_expression_names text (ast.messageType item))
        (ast.socket_items s)
  | ast.StructStatement s => field_type_names text (ast.fields s)
  | ast.UnionStatement s =>
      flat_map
        (λ item,
           match ast.struct item with
           | Some s => field_type_names text (ast.struct_fields s)
           | None => []
           end)
        (ast.union_items s)
  end.

(** The kind of a statement and the kind of a definition body. *)
Inductive Kind := KEnum | KImport | KRpc | KScalar | KSocket | KStruct | KUnion.

Definition statement_kind (statement : ast.ModuleLevelStatement) : Kind :=
  match statement with
  | ast.EnumStatement _ => KEnum
  | ast.ImportStatement _ => KImport
  | ast.RpcStatement _ => KRpc
  | ast.ScalarStatement _ => KScalar
  | ast.SocketStatement _ => KSocket
  | ast.StructStatement _ => KStruct
  | ast.UnionStatement _ => KUnion
  end.

Definition body_kind (body : ir.DefBody) : Kind :=
  match body with
  | ir.Enum _ => KEnum
  | ir.Rpc _ => KRpc
  | ir.Scalar _ => KScalar
  | ir.Socket _ _ => KSocket
  | ir.Struct _ => KStruct
  | ir.Union _ => KUnion
  end.

(** The names of the items of a statement, in declaration order: the
    items of an enumeration, the methods of an rpc, the fields of a
    struct, the variants of a union. *)
Definition item_names (text : string) (statement : ast.ModuleLevelStatement)
  : list string :=
  match statement with
  | ast.EnumStatement s =>
      map (λ item, span text (ast.enum_item_name item)) (ast.enum_items s)
  | ast.RpcStatement s =>
      map (λ item, span text (ast.rpc_item_name item)) (ast.rpc_items s)
  | ast.StructStatement s =>
      map (λ field, span text (ast.field_name field)) (ast.fields s)
  | ast.UnionStatement s =>
      map (λ item, span text (ast.union_item_name item)) (ast.union_items s)
  | _ => []
  end.

(** The names of the items of a definition body. *)
Definition body_item_names (body : ir.DefBody) : list string :=
  match body with
  | ir.Enum items => map ir.enum_item_name items
  | ir.Rpc items => map ir.rpc_item_name items
  | ir.Struct fields => map ir.field_name fields
  | ir.Union items => map ir.union_item_name items
  | _ => []
  end.

End Vocabulary.

(** How many times an element occurs in a list. *)
Definition occurrences (x : string) (l : list string) : nat :=
  length (filter (λ y, y = x) l).

(** Whether a name contains a dot. *)
Fixpoint has_dot (s : string) : bool :=
  match s with
  | EmptyString => false
  | String c s => bool_decide (String c "" = ".") || has_dot s
  end.

(** ** A concrete program

    Three modules: [a] and [b] both import [c], and [c] imports [a] back;
    [a] declares [S] twice. *)
Module Example.

(** [text.slice(start, end)]. *)
Definition slice (text : string) (s : ast.Span) : string :=
  String.substring (ast.start s) (ast.end_ s - ast.start s) text.

Definition joinPath (text : string) (path : list ast.Span) : string :=
  String.concat "." (map (slice text) path).

Definition attributeContent (text : string) (a : ast.Attribute) : string :=
  from_option (slice text) "" (ast.content a).

Definition importPaths (text : string) (ast : ast.BdlAst) : list string :=
  map (λ i, joinPath text (ast.path i)) (omap isImport (ast.statements ast)).

#[export] Instance utils : AstUtils :=
  {| span := slice;
     pathItemsToString := joinPath;
     getAttributeContent := attributeContent;
     getImportPaths := importPaths |}.

Definition sp (start end_ : nat) : ast.Span :=
  {| ast.start := start; ast.end_ := end_ |}.

Definition field (name : ast.Span) (type : ast.TypeExpression) : ast.StructField :=
  {| ast.field_attributes := []; ast.field_name := name;
     ast.question := None; ast.itemType := type |}.

Definition import (path : ast.Span) (items : list ast.ImportItem)
  : ast.ModuleLevelStatement :=
  ast.ImportStatement
    {| ast.import_attributes := []; ast.path := [path];
       ast.import_items := items |}.

Definition struct (name : ast.Span) (fields : list ast.StructField)
  : ast.ModuleLevelStatement :=
  ast.StructStatement
    {| ast.struct_attributes := []; ast.struct_name := name;
       ast.fields := fields |}.

Definition text_a : string :=
  "import c { X as Y } struct S { f: Y } struct S { g: int[] }".
Definition text_b : string := "import c { X }".
Definition text_c : string := "import a { S } struct X { }".

Definition ast_a : ast.BdlAst :=
  {| ast.attributes := [];
     ast.statements :=
       [ import (sp 7 8)
           [ {| ast.item_name := sp 11 12;
                ast.alias := Some {| ast.alias_name := sp 16 17 |} |} ];
         struct (sp 27 28)
           [ field (sp 31 32)
               {| ast.valueType := sp 34 35; ast.container := None |} ];
         struct (sp 45 46)
           [ field (sp 49 50)
               {| ast.valueType := sp 52 55;
                  ast.container := Some {| ast.keyType := None |} |} ] ] |}.

Definition ast_b : ast.BdlAst :=
  {| ast.attributes := [];
     ast.statements :=
       [ import (sp 7 8) [ {| ast.item_name := sp 11 12; ast.alias := None |} ] ] |}.

Definition ast_c : ast.BdlAst :=
  {| ast.attributes := [];
     ast.statements :=
       [ import (sp 7 8) [ {| ast.item_name := sp 11 12; ast.alias := None |} ];
         struct (sp 22 23) [] ] |}.

Definition parse (text : string) : string + ast.BdlAst :=
  if decide (text = text_a) then inr ast_a
  else if decide (text = text_b) then inr ast_b
  else if decide (text = text_c) then inr ast_c
  else inl "parse error".

#[export] Instance parser : BdlParser := {| Exn := string; parseBdl := parse |}.

Definition resolve (modulePath : string) : string + ResolveModuleFileResult :=
  if decide (modulePath = "a") then inr {| fileUrl := None; text := text_a |}
  else if decide (modulePath = "b") then inr {| fileUrl := None; text := text_b |}
  else if decide (modulePath = "c") then inr {| fileUrl := None; text := text_c |}
  else inl "not found".

Definition config : BuildBdlIrConfig :=
  {| entryModulePaths := ["a"; "b"]; resolveModuleFile := resolve |}.

(** The same program with an entry that cannot be resolved. *)
Definition failing_config : BuildBdlIrConfig :=
  {| entryModulePaths := ["d"; "a"]; resolveModuleFile := resolve |}.

Definition moduleFile_a : ModuleFile :=
  {| file := {| fileUrl := None; text := text_a |};
     modulePath := "a"; ast_ := ast_a |}.

Definition moduleFile_b : ModuleFile :=
  {| file := {| fileUrl := None; text := text_b |};
     modulePath := "b"; ast_ := ast_b |}.

Definition moduleFile_c : ModuleFile :=
  {| file := {| fileUrl := None; text := text_c |};
     modulePath := "c"; ast_ := ast_c |}.

(** What the build of [config] returns: the traversal pops [b] first,
    then [c], which [b] imports, then [a]. *)
Definition result : BuildBdlIrResult :=
  foldl buildModule
    {| asts := ∅; ir_ := {| ir.modules := ∅; ir.defs := ∅ |} |}
    [moduleFile_b; moduleFile_c; moduleFile_a].

(** The definition built from the second declaration of [S] in [a]. *)
Definition second_S : ir.Def :=
  {| ir.attributes := [];
     ir.name := "S";
     ir.body :=
       ir.Struct
         [ {| ir.field_attributes := [];
              ir.field_name := "g";
              ir.itemType := ir.Array (ir.Str "int");
              ir.optional := false |} ] |}.

(** The type expressions [int[]] and [int[string]], and a reference to a
    type called [toString]. *)
Definition text_types : string := "int string toString".

Definition int_array : ast.TypeExpression :=
  {| ast.valueType := sp 0 3;
     ast.container := Some {| ast.keyType := None |} |}.

Definition int_by_string : ast.TypeExpression :=
  {| ast.valueType := sp 0 3;
     ast.container := Some {| ast.keyType := Some (sp 4 10) |} |}.

Definition toString_reference : ast.TypeExpression :=
  {| ast.valueType := sp 11 19; ast.container := None |}.

(** A socket statement with two items from the server to the client and
    none the other way. *)
Definition text_socket : string := "server client A B".

Definition socket : ast.Socket :=
  {| ast.socket_attributes := [];
     ast.socket_name := sp 0 0;
     ast.socket_items :=
       [ {| ast.socket_item_attributes := [];
            ast.sender := sp 0 6; ast.receiver := sp 7 13;
            ast.messageType :=
              {| ast.valueType := sp 14 15; ast.container := None |} |};
         {| ast.socket_item_attributes := [];
            ast.sender := sp 0 6; ast.receiver := sp 7 13;
            ast.messageType :=
              {| ast.valueType := sp 16 17; ast.container := None |} |} ] |}.


(** The same program with its entries the other way round: the traversal
    pops [a] first, then [c], which [a] imports, then [b]. *)
Definition reversed_config : BuildBdlIrConfig :=
  {| entryModulePaths := ["b"; "a"]; resolveModuleFile := resolve |}.

Definition reversed_result : BuildBdlIrResult :=
  foldl buildModule
    {| asts := ∅; ir_ := {| ir.modules := ∅; ir.defs := ∅ |} |}
    [moduleFile_a; moduleFile_c; moduleFile_b].

(** A capability that fails for every path. *)
Definition offline (modulePath : string) : Exn + ResolveModuleFileResult :=
  inl "offline".

(** The second declaration of [S] in [a]. *)
Definition second_S_statement : ast.ModuleLevelStatement :=
  struct (sp 45 46)
    [ field (sp 49 50)
        {| ast.valueType := sp 52 55;
           ast.container := Some {| ast.keyType := None |} |} ].

(** Two import declarations that make three things visible, two of them
    as [S]. *)
Definition import_S_from_b : ir.Import :=
  {| ir.import_attributes := [];
     ir.modulePath := "b";
     ir.items := [ {| ir.item_name := "S"; ir.as_ := None |} ] |}.

Definition T_as_S : ir.ImportItem :=
  {| ir.item_name := "T"; ir.as_ := Some "S" |}.

Definition import_T_as_S_from_c : ir.Import :=
  {| ir.import_attributes := [];
     ir.modulePath := "c";
     ir.items := [ T_as_S; {| ir.item_name := "U"; ir.as_ := None |} ] |}.

(** A socket statement with one item for each direction, declared in
    either order. *)
Definition server_to_client : ast.SocketItem :=
  {| ast.socket_item_attributes := [];
     ast.sender := sp 0 6; ast.receiver := sp 7 13;
     ast.messageType :=
       {| ast.valueType := sp 14 15; ast.container := None |} |}.

Definition client_to_server : ast.SocketItem :=
  {| ast.socket_item_attributes := [];
     ast.sender := sp 7 13; ast.receiver := sp 0 6;
     ast.messageType :=
       {| ast.valueType := sp 16 17; ast.container := None |} |}.

Definition socket_server_first : ast.Socket :=
  {| ast.socket_attributes := [];
     ast.socket_name := sp 0 0;
     ast.socket_items := [server_to_client; client_to_server] |}.

Definition socket_client_first : ast.Socket :=
  {| ast.socket_attributes := [];
     ast.socket_name := sp 0 0;
     ast.socket_items := [client_to_server; server_to_client] |}.

(** The program behind a capability that knows a broken module [z],
    which nothing imports. *)
Definition config_with_z : BuildBdlIrConfig :=
  {| entryModulePaths := ["a"; "b"];
     resolveModuleFile :=
       λ modulePath,
         if decide (modulePath = "z")
         then inr {| fileUrl := None; text := "struct {" |}
         else resolve modulePath |}.

End Example.

(** * Properties *)

Section Facts.

Context `{!AstUtils} `{!BdlParser}.

(** ** The type expression resolver *)

(** A name that is neither declared in the module, nor bound by an
    import, nor inherited from [Object.prototype] resolves to itself. *)
Lemma typeNameToPath_unresolved (modulePath : string)
    (localDefNames : gset string) (importedNames : gmap string string)
    (typeName : string) :
  typeName ∉ localDefNames →
  importedNames !! typeName = None →
  typeName ∉ Object_prototype_keys →
  typeNameToPath modulePath localDefNames importedNames typeName
  = ir.Str typeName.
Proof.
  intros Hlocal Himported Hproto. unfold typeNameToPath, prototype_lookup.
  rewrite decide_False by done. rewrite Himported.
  by rewrite bool_decide_eq_false_2.
Qed.

(** C5: a type expression without a container is [Plain] of the
    resolved value-type name; with a container that has no key type it
    is [Array] of the resolved value-type name; with a container that
    has a key type it is [Dictionary] of the value-type and key-type
    names, each passed through the module's resolution function.  So
    [int[]] is [Array "int"] and a dictionary from [string] to [int] is
    [Dictionary] with key [string] and value [int] when the module
    neither declares nor imports these names. *)
Theorem buildType_three_shapes (modulePath : string)
    (localDefNames : gset string) (importedNames : gmap string string)
    (text : string) (type : ast.TypeExpression) :
  (ast.container type = None →
   buildType text type (typeNameToPath modulePath localDefNames importedNames)
   = ir.Plain
       (typeNameToPath modulePath localDefNames importedNames
          (span text (ast.valueType type))))
  ∧ (∀ container,
       ast.container type = Some container →
       ast.keyType container = None →
       buildType text type (typeNameToPath modulePath localDefNames importedNames)
       = ir.Array
           (typeNameToPath modulePath localDefNames importedNames
              (span text (ast.valueType type))))
  ∧ (∀ container keyType,
       ast.container type = Some container →
       ast.keyType container = Some keyType →
       buildType text type (typeNameToPath modulePath localDefNames importedNames)
       = ir.Dictionary
           (typeNameToPath modulePath localDefNames importedNames
              (span text (ast.valueType type)))
           (typeNameToPath modulePath localDefNames importedNames
              (span text keyType)))
  ∧ (∀ container,
       ast.container type = Some container →
       ast.keyType container = None →
       span text (ast.valueType type) = "int" →
       "int" ∉ localDefNames → importedNames !! "int" = None →
       buildType text type (typeNameToPath modulePath localDefNames importedNames)
       = ir.Array (ir.Str "int"))
  ∧ (∀ container keyType,
       ast.container type = Some container →
       ast.keyType container = Some keyType →
       span text (ast.valueType type) = "int" →
       span text keyType = "string" →
       "int" ∉ localDefNames → importedNames !! "int" = None →
       "string" ∉ localDefNames → importedNames !! "string" = None →
       buildType text type (typeNameToPath modulePath localDefNames importedNames)
       = ir.Dictionary (ir.Str "int") (ir.Str "string")).
Proof.
  assert (Hint : "int" ∉ Object_prototype_keys)
    by (by apply (bool_decide_eq_false_1 (_ ∈ _))).
  assert (Hstring : "string" ∉ Object_prototype_keys)
    by (by apply (bool_decide_eq_false_1 (_ ∈ _))).
  unfold buildType. repeat split.
  - by intros ->.
  - by intros container -> ->.
  - by intros container keyType -> ->.
  - intros container -> -> -> Hlocal Himported.
    by rewrite typeNameToPath_unresolved.
  - intros container keyType -> -> -> -> Hl1 Hi1 Hl2 Hi2.
    by rewrite !typeNameToPath_unresolved.
Qed.

(** ** Sockets *)

Lemma find_first {A} (p : A → bool) (pre : list A) (x : A) (post : list A) :
  p x = true → (∀ y, y ∈ pre → p y = false) →
  List.find p (pre ++ x :: post) = Some x.
Proof.
  intros Hx. induction pre as [|y pre IH]; intros Hpre; simpl.
  - by rewrite Hx.
  - rewrite (Hpre y) by left. apply IH. intros z Hz. apply Hpre. by right.
Qed.

Lemma find_nothing {A} (p : A → bool) (l : list A) :
  (∀ y, y ∈ l → p y = false) → List.find p l = None.
Proof.
  induction l as [|y l IH]; intros Hl; simpl; [done|].
  rewrite (Hl y) by left. apply IH. intros z Hz. apply Hl. by right.
Qed.

Lemma is_serverToClient_spec (text : string) (item : ast.SocketItem) :
  is_serverToClient text item = true ↔
  span text (ast.sender item) = "server"
  ∧ span text (ast.receiver item) = "client".
Proof.
  unfold is_serverToClient.
  rewrite andb_true_iff, !bool_decide_eq_true. done.
Qed.

Lemma is_clientToServer_spec (text : string) (item : ast.SocketItem) :
  is_clientToServer text item = true ↔
  span text (ast.sender item) = "client"
  ∧ span text (ast.receiver item) = "server".
Proof.
  unfold is_clientToServer.
  rewrite andb_true_iff, !bool_decide_eq_true. done.
Qed.

(** C4: [buildSocket] always returns a [Socket] body; each channel is
    built from the first item, in declaration order, that carries the
    role labels of its direction, whatever comes after it, and is
    absent when no item carries them. *)
Theorem buildSocket_by_role (text : string) (statement : ast.Socket)
    (typeNameToPath : string → ir.Path) :
  ∃ serverToClient clientToServer,
    buildSocket text statement typeNameToPath
    = ir.Socket serverToClient clientToServer
    ∧ (∀ pre item post,
         ast.socket_items statement = pre ++ item :: post →
         directed text "server" "client" item →
         (∀ earlier, earlier ∈ pre → ¬ directed text "server" "client" earlier) →
         serverToClient = Some (buildSocketItem text item typeNameToPath))
    ∧ ((∀ item, item ∈ ast.socket_items statement →
                ¬ directed text "server" "client" item) →
       serverToClient = None)
    ∧ (∀ pre item post,
         ast.socket_items statement = pre ++ item :: post →
         directed text "client" "server" item →
         (∀ earlier, earlier ∈ pre → ¬ directed text "client" "server" earlier) →
         clientToServer = Some (buildSocketItem text item typeNameToPath))
    ∧ ((∀ item, item ∈ ast.socket_items statement →
                ¬ directed text "client" "server" item) →
       clientToServer = None).
Proof.
  unfold buildSocket. eexists _, _. split; [reflexivity|].
  assert (Hs : ∀ item, is_serverToClient text item = false
                       ↔ ¬ directed text "server" "client" item).
  { intros item. rewrite <- not_true_iff_false, is_serverToClient_spec. done. }
  assert (Hc : ∀ item, is_clientToServer text item = false
                       ↔ ¬ directed text "client" "server" item).
  { intros item. rewrite <- not_true_iff_false, is_clientToServer_spec. done. }
  repeat split.
  - intros pre item post -> Hitem Hpre.
    rewrite (find_first _ pre item post); [done| |].
    + by apply is_serverToClient_spec.
    + intros y Hy. apply Hs. by apply Hpre.
  - intros Hnone. rewrite find_nothing; [done|].
    intros y Hy. apply Hs. by apply Hnone.
  - intros pre item post -> Hitem Hpre.
    rewrite (find_first _ pre item post); [done| |].
    + by apply is_clientToServer_spec.
    + intros y Hy. apply Hc. by apply Hpre.
  - intros Hnone. rewrite find_nothing; [done|].
    intros y Hy. apply Hc. by apply Hnone.
Qed.

(** ** The symbol resolver *)

(** The local set holds the names of the statements that have one. *)
Lemma elem_of_localDefNames (text : string) (ast : ast.BdlAst)
    (typeName : string) :
  typeName ∈ localDefNames text (defStatements ast) ↔
  ∃ statement name,
    statement ∈ ast.statements ast
    ∧ ast.name statement = Some name
    ∧ span text name = typeName.
Proof.
  unfold localDefNames, defStatements.
  rewrite elem_of_list_to_set, list_elem_of_omap. split.
  - intros (statement & Hin & Hname).
    apply list_elem_of_filter in Hin as [_ Hin].
    destruct (ast.name statement) as [name|] eqn:E; [|done].
    simpl in Hname. exists statement, name. naive_solver.
  - intros (statement & name & Hin & Hname & <-).
    exists statement. split; [|by rewrite Hname].
    apply list_elem_of_filter. by rewrite Hname.
Qed.

Lemma typeNameToPath_local (modulePath : string)
    (localDefNames : gset string) (importedNames : gmap string string)
    (typeName : string) :
  typeName ∈ localDefNames →
  typeNameToPath modulePath localDefNames importedNames typeName
  = ir.Str (modulePath +:+ "." +:+ typeName).
Proof. intros Hlocal. unfold typeNameToPath. by rewrite decide_True. Qed.

Lemma typeNameToPath_imported (modulePath : string)
    (localDefNames : gset string) (importedNames : gmap string string)
    (typeName typePath : string) :
  typeName ∉ localDefNames →
  importedNames !! typeName = Some typePath →
  typeNameToPath modulePath localDefNames importedNames typeName
  = ir.Str typePath.
Proof.
  intros Hlocal Himported. unfold typeNameToPath, prototype_lookup.
  rewrite decide_False by done. by rewrite Himported.
Qed.

(** A name that the module neither declares nor imports, but that
    [Object.prototype] carries, does not come back unchanged. *)
Lemma typeNameToPath_inherited (modulePath : string)
    (localDefNames : gset string) (importedNames : gmap string string)
    (typeName : string) :
  typeName ∉ localDefNames →
  importedNames !! typeName = None →
  typeName ∈ Object_prototype_keys →
  typeNameToPath modulePath localDefNames importedNames typeName
  = ir.ObjectPrototypeMember typeName.
Proof.
  intros Hlocal Himported Hproto. unfold typeNameToPath, prototype_lookup.
  rewrite decide_False by done. rewrite Himported.
  by rewrite bool_decide_eq_true_2.
Qed.

(** *** The imported-name map *)

Lemma foldl_insert_bindings (bindings : list (string * string))
    (m : gmap string string) :
  foldl (λ m kv, <[kv.1 := kv.2]> m) m bindings
  = list_to_map (reverse bindings) ∪ m.
Proof.
  revert m. induction bindings as [|[k v] bindings IH]; intros m; simpl.
  - by rewrite (left_id_L ∅ (∪)).
  - rewrite IH, reverse_cons, list_to_map_app. simpl.
    rewrite <- (assoc_L (∪)). f_equal.
    by rewrite insert_union_singleton_l, insert_empty.
Qed.

Lemma importedNames_foldl (imports : list ir.Import) (m : gmap string string) :
  foldl
    (λ importedNames importStatement,
       foldl
         (λ importedNames importItem,
            let typePath :=
              ir.modulePath importStatement +:+ "." +:+ ir.item_name importItem in
            match ir.as_ importItem with
            | Some (String c s) => <[String c s := typePath]> importedNames
            | _ => <[ir.item_name importItem := typePath]> importedNames
            end)
         importedNames (ir.items importStatement))
    m imports
  = foldl (λ m kv, <[kv.1 := kv.2]> m) m (import_bindings imports).
Proof.
  revert m. induction imports as [|importStatement imports IH]; intros m;
    [done|].
  unfold import_bindings in *. simpl. rewrite foldl_app, IH. f_equal.
  generalize (ir.items importStatement). clear IH. intros items. revert m.
  induction items as [|importItem items IH]; intros m; [done|].
  simpl. rewrite <- IH. f_equal.
  unfold local_name. by destruct (ir.as_ importItem) as [[|c s]|].
Qed.

(** C3 (as amended): the imported-name map holds one binding for each
    import item of each import declaration, taken in declaration order
    with later bindings overwriting earlier ones: the alias, when the
    item has a non-empty one, and the declared name otherwise, bound to
    [<importedModulePath>.<declaredName>].  A name is a key of the map
    exactly when it is the local name of some import item; the declared
    name of an aliased item is not bound by that item: the map of a
    single [X as Y] from module [b] is [Y] bound to [b.X] and nothing
    else. *)
Theorem importedNames_binds_local_names (imports : list ir.Import) :
  importedNames imports = list_to_map (reverse (import_bindings imports))
  ∧ (∀ key,
       is_Some (importedNames imports !! key) ↔
       ∃ importStatement importItem,
         importStatement ∈ imports
         ∧ importItem ∈ ir.items importStatement
         ∧ local_name importItem = key)
  ∧ (∀ attributes b X c Y,
       importedNames
         [ {| ir.import_attributes := attributes;
              ir.modulePath := b;
              ir.items :=
                [ {| ir.item_name := X; ir.as_ := Some (String c Y) |} ] |} ]
       = {[ String c Y := b +:+ "." +:+ X ]}).
Proof.
  assert (Heq : importedNames imports
                = list_to_map (reverse (import_bindings imports))).
  { unfold importedNames.
    rewrite importedNames_foldl, foldl_insert_bindings.
    by rewrite (right_id_L ∅ (∪)). }
  split_and!; [done| |by intros; apply insert_empty]. intros key. rewrite Heq.
  rewrite <- elem_of_dom, dom_list_to_map_L, elem_of_list_to_set.
  rewrite fmap_reverse, elem_of_reverse, list_elem_of_fmap.
  unfold import_bindings. split.
  - intros ([k v] & -> & Hin). simpl.
    apply list_elem_of_In, in_flat_map in Hin as (importStatement & Hi & Hin).
    apply list_elem_of_In, list_elem_of_fmap in Hin as (importItem & Hkv & Hin).
    exists importStatement, importItem.
    rewrite list_elem_of_In. naive_solver.
  - intros (importStatement & importItem & Hi & Hin & <-).
    eexists (_, _). split; [reflexivity|].
    apply list_elem_of_In, in_flat_map. exists importStatement.
    split; [by apply list_elem_of_In|].
    apply list_elem_of_In, list_elem_of_fmap. by exists importItem.
Qed.

(** ** The traversal *)

Lemma pop_snoc {A} (queue : list A) (x : A) : pop (queue ++ [x]) = Some (x, queue).
Proof. induction queue as [|y queue IH]; simpl; [done|]. by rewrite IH. Qed.

Lemma gather_loop_nil
    (resolveModuleFile : string → Exn + ResolveModuleFileResult)
    (fuel : nat) (visited : gset string) :
  gather_loop resolveModuleFile (S fuel) [] visited = Returned [].
Proof. done. Qed.

(** One turn of the loop, on a queue whose last element is [p]. *)
Lemma gather_loop_snoc
    (resolveModuleFile : string → Exn + ResolveModuleFileResult)
    (fuel : nat) (queue : list string) (p : string) (visited : gset string) :
  gather_loop resolveModuleFile (S fuel) (queue ++ [p]) visited
  = if decide (p ∈ visited)
    then gather_loop resolveModuleFile fuel queue visited
    else
      match fetch resolveModuleFile p with
      | inl e => Threw e
      | inr moduleFile =>
          match gather_loop resolveModuleFile fuel
                  (queue ++ module_imports resolveModuleFile p)
                  ({[p]} ∪ visited) with
          | Returned moduleFiles => Returned (moduleFile :: moduleFiles)
          | Threw e => Threw e
          | OutOfFuel => OutOfFuel
          end
      end.
Proof.
  cbn [gather_loop]. rewrite pop_snoc. destruct (decide (p ∈ visited)); [done|].
  unfold module_imports, fetch.
  destruct (resolveModuleFile p) as [e|r]; [done|].
  by destruct (parseBdl (text r)) as [e|ast].
Qed.

Lemma fetch_modulePath
    (resolveModuleFile : string → Exn + ResolveModuleFileResult)
    (p : string) (moduleFile : ModuleFile) :
  fetch resolveModuleFile p = inr moduleFile → modulePath moduleFile = p.
Proof.
  unfold fetch. destruct (resolveModuleFile p) as [e|r]; [done|].
  destruct (parseBdl (text r)) as [e|ast]; [done|]. by intros [= <-].
Qed.

Lemma reachable_from_mono
    (resolveModuleFile : string → Exn + ResolveModuleFileResult)
    (seeds seeds' : list string) (p : string) :
  (∀ q, q ∈ seeds → reachable_from resolveModuleFile seeds' q) →
  reachable_from resolveModuleFile seeds p →
  reachable_from resolveModuleFile seeds' p.
Proof.
  intros Hseeds. induction 1 as [p Hp|p q _ IH Hq]; [by apply Hseeds|].
  by eapply reachable_hop.
Qed.

(** A set that contains the seeds and the imports of its members
    contains everything reachable. *)
Lemma reachable_from_closed
    (resolveModuleFile : string → Exn + ResolveModuleFileResult)
    (seeds : list string) (P : string → Prop) :
  (∀ p, p ∈ seeds → P p) →
  (∀ p q, P p → q ∈ module_imports resolveModuleFile p → P q) →
  ∀ p, reachable_from resolveModuleFile seeds p → P p.
Proof. intros Hseeds Hclosed p. induction 1; eauto. Qed.

(** What a finished traversal has yielded: no path twice and none that
    was visited before, for each path the file fetched for it, only
    paths reachable from the queue; and every path of the queue, and
    every import of a yielded file, is visited by the end. *)
Lemma gather_loop_sound
    (resolveModuleFile : string → Exn + ResolveModuleFileResult)
    (fuel : nat) (queue : list string) (visited : gset string)
    (moduleFiles : list ModuleFile) :
  gather_loop resolveModuleFile fuel queue visited = Returned moduleFiles →
  NoDup (modulePath <$> moduleFiles)
  ∧ (∀ moduleFile, moduleFile ∈ moduleFiles →
       (modulePath moduleFile ∉ visited)
       ∧ fetch resolveModuleFile (modulePath moduleFile) = inr moduleFile
       ∧ reachable_from resolveModuleFile queue (modulePath moduleFile))
  ∧ (∀ q, q ∈ queue → q ∈ visited ∨ q ∈ (modulePath <$> moduleFiles))
  ∧ (∀ moduleFile q,
       moduleFile ∈ moduleFiles →
       q ∈ module_imports resolveModuleFile (modulePath moduleFile) →
       q ∈ visited ∨ q ∈ (modulePath <$> moduleFiles)).
Proof.
  revert queue visited moduleFiles.
  induction fuel as [|fuel IH]; intros queue visited moduleFiles; [done|].
  destruct queue as [|p queue _] using rev_ind.
  { rewrite gather_loop_nil. intros [= <-]. split_and!.
    - constructor.
    - intros ? Hin; by apply elem_of_nil in Hin.
    - intros ? Hin; by apply elem_of_nil in Hin.
    - intros ? ? Hin; by apply elem_of_nil in Hin. }
  rewrite gather_loop_snoc. destruct (decide (p ∈ visited)) as [Hp|Hp].
  - intros Hrun. destruct (IH _ _ _ Hrun) as (Hnodup & Hfiles & Hqueue & Himports).
    split_and!; [done| | |done].
    + intros moduleFile Hin. destruct (Hfiles _ Hin) as (? & ? & Hreach).
      split_and!; [done..|].
      eapply reachable_from_mono; [|done].
      intros q Hq. apply reachable_seed. set_solver.
    + intros q [Hq|Hq]%elem_of_app; [by apply Hqueue|].
      apply list_elem_of_singleton in Hq as ->. by left.
  - destruct (fetch resolveModuleFile p) as [e|moduleFile] eqn:Hfetch; [done|].
    destruct (gather_loop resolveModuleFile fuel _ _) as [rest| |] eqn:Hrun;
      [|done..].
    intros [= <-].
    destruct (IH _ _ _ Hrun) as (Hnodup & Hfiles & Hqueue & Himports).
    pose proof (fetch_modulePath _ _ _ Hfetch) as Hpath.
    rewrite fmap_cons, Hpath. split_and!.
    + constructor; [|done].
      intros (moduleFile' & -> & Hin)%list_elem_of_fmap.
      destruct (Hfiles _ Hin) as [Hnot _]. set_solver.
    + intros moduleFile' [->|Hin]%elem_of_cons.
      { rewrite Hpath. split_and!; [done..|]. apply reachable_seed. set_solver. }
      destruct (Hfiles _ Hin) as (Hnot & ? & Hreach).
      split_and!; [set_solver|done|].
      eapply reachable_from_mono; [|done].
      intros q [Hq|Hq]%elem_of_app.
      * apply reachable_seed. set_solver.
      * eapply reachable_hop; [|done]. apply reachable_seed. set_solver.
    + intros q [Hq|Hq]%elem_of_app.
      * destruct (Hqueue q) as [Hv|Hv]; set_solver.
      * apply list_elem_of_singleton in Hq as ->. set_solver.
    + intros moduleFile' q [->|Hin]%elem_of_cons Hq.
      * rewrite Hpath in Hq. destruct (Hqueue q) as [Hv|Hv]; set_solver.
      * destruct (Himports _ _ Hin Hq) as [Hv|Hv]; set_solver.
Qed.

(** More fuel does not change the result of a run that has ended. *)
Lemma gather_loop_fuel_mono
    (resolveModuleFile : string → Exn + ResolveModuleFileResult)
    (fuel fuel' : nat) (queue : list string) (visited : gset string) :
  fuel ≤ fuel' →
  gather_loop resolveModuleFile fuel queue visited ≠ OutOfFuel →
  gather_loop resolveModuleFile fuel' queue visited
  = gather_loop resolveModuleFile fuel queue visited.
Proof.
  revert fuel' queue visited.
  induction fuel as [|fuel IH]; intros fuel' queue visited Hle Hrun; [done|].
  destruct fuel' as [|fuel']; [lia|].
  destruct queue as [|p queue _] using rev_ind; [done|].
  rewrite !gather_loop_snoc in *.
  destruct (decide (p ∈ visited)); [apply IH; [lia|done]|].
  destruct (fetch resolveModuleFile p) as [e|moduleFile]; [done|].
  rewrite (IH fuel'); [done|lia|]. intros Heq. by rewrite Heq in Hrun.
Qed.

(** An exception that leaves the traversal is the one raised for a path
    reachable from the queue. *)
Lemma gather_loop_threw
    (resolveModuleFile : string → Exn + ResolveModuleFileResult)
    (fuel : nat) (queue : list string) (visited : gset string) (e : Exn) :
  gather_loop resolveModuleFile fuel queue visited = Threw e →
  ∃ p, reachable_from resolveModuleFile queue p
       ∧ fetch resolveModuleFile p = inl e.
Proof.
  revert queue visited.
  induction fuel as [|fuel IH]; intros queue visited; [done|].
  destruct queue as [|p queue _] using rev_ind; [done|].
  rewrite gather_loop_snoc. destruct (decide (p ∈ visited)).
  - intros (q & Hq & Hfetch)%IH. exists q. split; [|done].
    eapply reachable_from_mono; [|done].
    intros q' Hq'. apply reachable_seed. set_solver.
  - destruct (fetch resolveModuleFile p) as [e'|moduleFile] eqn:Hfetch.
    { intros [= ->]. exists p. split; [|done]. apply reachable_seed. set_solver. }
    destruct (gather_loop resolveModuleFile fuel _ _) as [rest|e'|] eqn:Hrun;
      [done| |done].
    intros [= ->]. apply IH in Hrun as (q & Hq & Hfetch').
    exists q. split; [|done].
    eapply reachable_from_mono; [|done].
    intros q' [Hq'|Hq']%elem_of_app.
    + apply reachable_seed. set_solver.
    + eapply reachable_hop; [|done]. apply reachable_seed. set_solver.
Qed.

(** When finitely many paths are reachable the traversal ends: every
    unvisited pop removes a path from [R ∖ visited], every other pop
    shortens the queue. *)
Lemma gather_loop_terminates
    (resolveModuleFile : string → Exn + ResolveModuleFileResult)
    (seeds : list string) (R : gset string) :
  (∀ p, reachable_from resolveModuleFile seeds p → p ∈ R) →
  ∀ (visited : gset string) (queue : list string),
    (∀ q, q ∈ queue → reachable_from resolveModuleFile seeds q) →
    ∃ fuel, gather_loop resolveModuleFile fuel queue visited ≠ OutOfFuel.
Proof.
  intros HR visited.
  remember (size (R ∖ visited)) as n eqn:Hn. revert visited Hn.
  induction n as [n IHn] using lt_wf_ind. intros visited -> queue.
  induction queue as [|p queue IHq] using rev_ind; intros Hqueue.
  { by exists 1. }
  destruct (decide (p ∈ visited)) as [Hp|Hp].
  - destruct IHq as [fuel Hfuel].
    { intros q Hq. apply Hqueue. set_solver. }
    exists (S fuel). by rewrite gather_loop_snoc, decide_True.
  - destruct (fetch resolveModuleFile p) as [e|moduleFile] eqn:Hfetch.
    { exists 1. by rewrite gather_loop_snoc, decide_False, Hfetch. }
    assert (Hreach : reachable_from resolveModuleFile seeds p).
    { apply Hqueue. set_solver. }
    destruct (IHn (size (R ∖ ({[p]} ∪ visited)))) with
      (visited := {[p]} ∪ visited)
      (queue := queue ++ module_imports resolveModuleFile p) as [fuel Hfuel].
    + apply subset_size. apply HR in Hreach. set_solver.
    + done.
    + intros q [Hq|Hq]%elem_of_app.
      * apply Hqueue. set_solver.
      * by eapply reachable_hop.
    + exists (S fuel). rewrite gather_loop_snoc, decide_False, Hfetch by done.
      by destruct (gather_loop resolveModuleFile fuel _ _).
Qed.

(** ** One module at a time *)

Lemma buildDefs_foldl (modulePath text : string)
    (typeNameToPath : string → ir.Path)
    (statements : list ast.ModuleLevelStatement)
    (defPaths : list string) (defs : gmap string ir.Def) :
  foldl
    (λ '(defPaths, defs) statement,
       match buildDef text statement typeNameToPath with
       | None => (defPaths, defs)
       | Some def =>
           let defPath := modulePath +:+ "." +:+ ir.name def in
           (defPaths ++ [defPath], <[defPath := def]> defs)
       end)
    (defPaths, defs) statements
  = (defPaths
       ++ (defPath modulePath
             <$> omap (λ s, buildDef text s typeNameToPath) statements),
     list_to_map
       (reverse ((λ def, (defPath modulePath def, def))
                   <$> omap (λ s, buildDef text s typeNameToPath) statements))
       ∪ defs).
Proof.
  revert defPaths defs.
  induction statements as [|statement statements IH]; intros defPaths defs; simpl.
  { by rewrite app_nil_r, (left_id_L ∅ (∪)). }
  destruct (buildDef text statement typeNameToPath) as [def|]; [|apply IH].
  rewrite IH. simpl. rewrite <- app_assoc. f_equal.
  rewrite reverse_cons, list_to_map_app. simpl.
  rewrite <- (assoc_L (∪)). f_equal.
  by rewrite insert_union_singleton_l, insert_empty.
Qed.

(** What one turn of the loop of [buildBdlIr] does to the accumulated
    result. *)
Lemma buildModule_spec (acc : BuildBdlIrResult) (moduleFile : ModuleFile) :
  buildModule acc moduleFile
  = {| asts := <[modulePath moduleFile := ast_ moduleFile]> (asts acc);
       ir_ :=
         {| ir.modules :=
              <[modulePath moduleFile := builtModule moduleFile]>
                (ir.modules (ir_ acc));
            ir.defs :=
              list_to_map
                (reverse ((λ def, (defPath (modulePath moduleFile) def, def))
                            <$> builtDefs moduleFile))
                ∪ ir.defs (ir_ acc) |} |}.
Proof.
  unfold buildModule, buildDefs. rewrite buildDefs_foldl. done.
Qed.

(** ** The whole build *)

Lemma foldl_snoc {A B} (f : A → B → A) (a : A) (l : list B) (x : B) :
  foldl f a (l ++ [x]) = f (foldl f a l) x.
Proof. by rewrite foldl_app. Qed.

Lemma foldl_buildModule_dom (acc : BuildBdlIrResult)
    (moduleFiles : list ModuleFile) :
  dom (ir.modules (ir_ (foldl buildModule acc moduleFiles)))
  = list_to_set (modulePath <$> moduleFiles) ∪ dom (ir.modules (ir_ acc)).
Proof.
  induction moduleFiles as [|moduleFile moduleFiles IH] using rev_ind.
  { simpl. set_solver. }
  rewrite foldl_snoc, buildModule_spec. simpl.
  rewrite dom_insert_L, IH, fmap_app, list_to_set_app_L. simpl. set_solver.
Qed.

(** A module file whose path occurs once leaves its tree and its
    [Module] record in the result. *)
Lemma foldl_buildModule_lookup (acc : BuildBdlIrResult)
    (moduleFiles : list ModuleFile) (moduleFile : ModuleFile) :
  NoDup (modulePath <$> moduleFiles) →
  moduleFile ∈ moduleFiles →
  asts (foldl buildModule acc moduleFiles) !! modulePath moduleFile
  = Some (ast_ moduleFile)
  ∧ ir.modules (ir_ (foldl buildModule acc moduleFiles)) !! modulePath moduleFile
    = Some (builtModule moduleFile).
Proof.
  induction moduleFiles as [|last moduleFiles IH] using rev_ind.
  { intros _ Hin. by apply elem_of_nil in Hin. }
  rewrite fmap_app, foldl_snoc, buildModule_spec. simpl.
  intros (Hnodup & Hlast & _)%NoDup_app [Hin|Hin]%elem_of_app.
  - assert (modulePath last ≠ modulePath moduleFile) as Hne.
    { intros Heq. apply (Hlast (modulePath moduleFile)).
      - apply list_elem_of_fmap. by exists moduleFile.
      - rewrite Heq. by left. }
    rewrite !lookup_insert_ne by done. by apply IH.
  - apply list_elem_of_singleton in Hin as ->.
    by rewrite !lookup_insert_eq.
Qed.

Lemma buildModule_defPaths_resolve (acc : BuildBdlIrResult)
    (moduleFile : ModuleFile) :
  defPaths_resolve acc → defPaths_resolve (buildModule acc moduleFile).
Proof.
  intros Hacc M m p. rewrite buildModule_spec. simpl.
  destruct (decide (modulePath moduleFile = M)) as [<-|Hne].
  - rewrite lookup_insert_eq. intros [= <-]. simpl.
    intros (def & -> & Hdef)%list_elem_of_fmap.
    assert (is_Some (list_to_map (M:=gmap string ir.Def)
              (reverse ((λ def, (defPath (modulePath moduleFile) def, def))
                 <$> builtDefs moduleFile))
              !! defPath (modulePath moduleFile) def)) as [d Hd].
    { apply elem_of_dom. rewrite dom_list_to_map_L, elem_of_list_to_set.
      rewrite fmap_reverse, elem_of_reverse, <- list_fmap_compose.
      apply list_elem_of_fmap. by exists def. }
    rewrite lookup_union, Hd. by destruct (ir.defs (ir_ acc) !! _).
  - rewrite lookup_insert_ne by done. intros Hm Hp.
    destruct (Hacc M m p Hm Hp) as [d Hd].
    rewrite lookup_union, Hd. by destruct (list_to_map _ !! p).
Qed.

Lemma foldl_buildModule_defPaths_resolve (acc : BuildBdlIrResult)
    (moduleFiles : list ModuleFile) :
  defPaths_resolve acc → defPaths_resolve (foldl buildModule acc moduleFiles).
Proof.
  revert acc. induction moduleFiles as [|moduleFile moduleFiles IH]; [done|].
  intros acc Hacc. simpl. by apply IH, buildModule_defPaths_resolve.
Qed.

Lemma buildBdlIr_defPaths_resolve (config : BuildBdlIrConfig) (fuel : nat)
    (result : BuildBdlIrResult) :
  buildBdlIr fuel config = Returned result → defPaths_resolve result.
Proof.
  unfold buildBdlIr.
  destruct (gather fuel config) as [moduleFiles| |]; [|done..].
  intros [= <-]. apply foldl_buildModule_defPaths_resolve.
  intros M m p. simpl. by rewrite lookup_empty.
Qed.

(** C7: in the result of a build that returns, every path listed in the
    [defPaths] of a module is a key of [defs]. *)
Theorem defPaths_are_keys_of_defs (config : BuildBdlIrConfig) (fuel : nat)
    (result : BuildBdlIrResult) (modulePath : string) (module : ir.Module_)
    (defPath : string) :
  buildBdlIr fuel config = Returned result →
  ir.modules (ir_ result) !! modulePath = Some module →
  defPath ∈ ir.defPaths module →
  is_Some (ir.defs (ir_ result) !! defPath).
Proof.
  intros Hbuild. by apply (buildBdlIr_defPaths_resolve _ _ _ Hbuild).
Qed.

(** A traversal from the entries that returns has yielded exactly the
    reachable paths. *)
Lemma gather_reachable (config : BuildBdlIrConfig) (fuel : nat)
    (moduleFiles : list ModuleFile) :
  gather fuel config = Returned moduleFiles →
  NoDup (modulePath <$> moduleFiles)
  ∧ (∀ p, p ∈ (modulePath <$> moduleFiles) ↔ reachable config p)
  ∧ (∀ moduleFile, moduleFile ∈ moduleFiles →
       fetch (resolveModuleFile config) (modulePath moduleFile) = inr moduleFile).
Proof.
  intros (Hnodup & Hfiles & Hqueue & Himports)%gather_loop_sound.
  split_and!; [done| |by intros moduleFile Hin; apply Hfiles].
  intros p. split.
  - intros (moduleFile & -> & Hin)%list_elem_of_fmap. by apply Hfiles.
  - revert p.
    apply (reachable_from_closed _ _ (λ p, p ∈ (modulePath <$> moduleFiles))).
    + intros q Hq. destruct (Hqueue q Hq) as [Hv|Hv]; [set_solver|done].
    + intros q q' (moduleFile & -> & Hin)%list_elem_of_fmap Hq'.
      destruct (Himports _ _ Hin Hq') as [Hv|Hv]; [set_solver|done].
Qed.

Lemma buildBdlIr_fuel_mono (config : BuildBdlIrConfig) (fuel fuel' : nat) :
  fuel ≤ fuel' →
  gather fuel config ≠ OutOfFuel →
  gather fuel' config = gather fuel config
  ∧ buildBdlIr fuel' config = buildBdlIr fuel config.
Proof.
  intros Hle Hrun. unfold buildBdlIr.
  assert (gather fuel' config = gather fuel config) as ->; [|done].
  by apply gather_loop_fuel_mono.
Qed.

Lemma gather_terminates (config : BuildBdlIrConfig) (R : gset string) :
  (∀ p, reachable config p → p ∈ R) →
  ∃ fuel, gather fuel config ≠ OutOfFuel.
Proof.
  intros HR. eapply gather_loop_terminates; [exact HR|].
  intros q Hq. by apply reachable_seed.
Qed.

(** When finitely many module paths are reachable and each of them
    resolves and parses, the build returns, with the modules of the
    traversal built in the order of the traversal. *)
Lemma buildBdlIr_returns (config : BuildBdlIrConfig) (R : gset string) :
  (∀ p, reachable config p → p ∈ R) →
  (∀ p, reachable config p →
        ∃ moduleFile, fetch (resolveModuleFile config) p = inr moduleFile) →
  ∃ fuel moduleFiles,
    ∀ fuel', fuel ≤ fuel' →
      gather fuel' config = Returned moduleFiles
      ∧ buildBdlIr fuel' config
        = Returned
            (foldl buildModule
               {| asts := ∅; ir_ := {| ir.modules := ∅; ir.defs := ∅ |} |}
               moduleFiles).
Proof.
  intros HR Hok. destruct (gather_terminates config R HR) as [fuel Hfuel].
  destruct (gather fuel config) as [moduleFiles|e|] eqn:Hrun; [| |done].
  - exists fuel, moduleFiles. intros fuel' Hle.
    destruct (buildBdlIr_fuel_mono config fuel fuel' Hle) as [-> ->];
      [by rewrite Hrun|].
    unfold buildBdlIr. by rewrite Hrun.
  - apply gather_loop_threw in Hrun as (p & Hp & Hfail).
    destruct (Hok p Hp) as [moduleFile HmoduleFile]. congruence.
Qed.

(** C1: when finitely many module paths are reachable from the entries
    and each of them resolves and parses, the build returns, and the
    traversal has fetched and parsed each reachable module path exactly
    once, whatever the number of import edges that lead to it and
    whether or not the imports form cycles: the yielded paths have no
    duplicate and are exactly the reachable ones, each with the file
    fetched for it.  The keys of the resulting module map are the
    reachable paths, one key for each. *)
Theorem each_reachable_module_visited_once (config : BuildBdlIrConfig)
    (R : gset string) :
  (∀ p, reachable config p → p ∈ R) →
  (∀ p, reachable config p →
        ∃ moduleFile, fetch (resolveModuleFile config) p = inr moduleFile) →
  ∃ fuel moduleFiles result,
    (∀ fuel', fuel ≤ fuel' →
       gather fuel' config = Returned moduleFiles
       ∧ buildBdlIr fuel' config = Returned result)
    ∧ NoDup (modulePath <$> moduleFiles)
    ∧ (∀ p, p ∈ (modulePath <$> moduleFiles) ↔ reachable config p)
    ∧ (∀ moduleFile, moduleFile ∈ moduleFiles →
         fetch (resolveModuleFile config) (modulePath moduleFile)
         = inr moduleFile)
    ∧ (∀ p, is_Some (ir.modules (ir_ result) !! p) ↔ reachable config p)
    ∧ size (ir.modules (ir_ result)) = length moduleFiles.
Proof.
  intros HR Hok.
  destruct (buildBdlIr_returns config R HR Hok) as (fuel & moduleFiles & Hrun).
  destruct (Hrun fuel (le_n _)) as [Hgather _].
  destruct (gather_reachable _ _ _ Hgather) as (Hnodup & Hpaths & Hfetch).
  exists fuel, moduleFiles,
    (foldl buildModule
       {| asts := ∅; ir_ := {| ir.modules := ∅; ir.defs := ∅ |} |}
       moduleFiles).
  split_and!; [done..| |].
  - intros p. rewrite <- elem_of_dom, foldl_buildModule_dom. simpl.
    rewrite dom_empty_L, (right_id_L ∅ (∪)), elem_of_list_to_set.
    apply Hpaths.
  - rewrite <- size_dom, foldl_buildModule_dom. simpl.
    rewrite dom_empty_L, (right_id_L ∅ (∪)), size_list_to_set by done.
    by rewrite length_fmap.
Qed.

(** C6: when finitely many module paths are reachable, the build ends,
    in one of two ways.  Either it throws, and the exception is the one
    that resolving or parsing some reachable module raised: nothing of
    the trees and of the IR built so far is returned.  Or it returns,
    and then every reachable module was resolved and parsed, and the
    result holds the tree and the [Module] record of each of them and
    every definition of each of them.  A failure for a reachable module
    always ends the build in the first way. *)
Theorem build_is_all_or_nothing (config : BuildBdlIrConfig) (R : gset string) :
  (∀ p, reachable config p → p ∈ R) →
  ∃ fuel,
    (∀ fuel', fuel ≤ fuel' → buildBdlIr fuel' config = buildBdlIr fuel config)
    ∧ match buildBdlIr fuel config with
      | Threw e =>
          ∃ p, reachable config p
               ∧ fetch (resolveModuleFile config) p = inl e
      | Returned result =>
          ∀ p, reachable config p →
               ∃ moduleFile,
                 fetch (resolveModuleFile config) p = inr moduleFile
                 ∧ asts result !! p = Some (ast_ moduleFile)
                 ∧ ir.modules (ir_ result) !! p = Some (builtModule moduleFile)
                 ∧ (∀ def, def ∈ builtDefs moduleFile →
                           is_Some (ir.defs (ir_ result) !! defPath p def))
      | OutOfFuel => False
      end
    ∧ ((∃ p e, reachable config p
               ∧ fetch (resolveModuleFile config) p = inl e) →
       ∃ e, buildBdlIr fuel config = Threw e).
Proof.
  intros HR. destruct (gather_terminates config R HR) as [fuel Hfuel].
  exists fuel.
  assert (Hcomplete :
    ∀ moduleFiles, gather fuel config = Returned moduleFiles →
      ∀ p, reachable config p →
        ∃ moduleFile,
          fetch (resolveModuleFile config) p = inr moduleFile
          ∧ asts (foldl buildModule
                    {| asts := ∅; ir_ := {| ir.modules := ∅; ir.defs := ∅ |} |}
                    moduleFiles) !! p = Some (ast_ moduleFile)
          ∧ ir.modules (ir_ (foldl buildModule
                    {| asts := ∅; ir_ := {| ir.modules := ∅; ir.defs := ∅ |} |}
                    moduleFiles)) !! p = Some (builtModule moduleFile)
          ∧ (∀ def, def ∈ builtDefs moduleFile →
               is_Some (ir.defs (ir_ (foldl buildModule
                    {| asts := ∅; ir_ := {| ir.modules := ∅; ir.defs := ∅ |} |}
                    moduleFiles)) !! defPath p def))).
  { intros moduleFiles Hrun p Hp.
    destruct (gather_reachable _ _ _ Hrun) as (Hnodup & Hpaths & Hfetch).
    apply Hpaths in Hp as (moduleFile & -> & Hin)%list_elem_of_fmap.
    exists moduleFile.
    destruct (foldl_buildModule_lookup
                {| asts := ∅; ir_ := {| ir.modules := ∅; ir.defs := ∅ |} |}
                moduleFiles moduleFile Hnodup Hin) as [Hast Hmodule].
    split_and!; [by apply Hfetch|done..|].
    intros def Hdef.
    eapply (foldl_buildModule_defPaths_resolve
              {| asts := ∅; ir_ := {| ir.modules := ∅; ir.defs := ∅ |} |});
      [|exact Hmodule|].
    - intros M m q. simpl. by rewrite lookup_empty.
    - simpl. apply list_elem_of_fmap. by exists def. }
  split_and!.
  - intros fuel' Hle. by apply buildBdlIr_fuel_mono.
  - unfold buildBdlIr.
    destruct (gather fuel config) as [moduleFiles|e|] eqn:Hrun; [|  |done].
    + by apply Hcomplete.
    + by apply gather_loop_threw in Hrun.
  - intros (p & e & Hp & Hfail). unfold buildBdlIr.
    destruct (gather fuel config) as [moduleFiles|e'|] eqn:Hrun; [|by eauto|done].
    destruct (Hcomplete _ eq_refl p Hp) as (moduleFile & Hfetch & _).
    congruence.
Qed.

(** ** Definition paths and duplicate names *)

Lemma append_inj_r (s t1 t2 : string) : s +:+ t1 = s +:+ t2 → t1 = t2.
Proof. induction s as [|c s IH]; simpl; [done|]. intros [= Heq]. by apply IH. Qed.

Lemma has_dot_app (s t : string) : has_dot (s +:+ t) = has_dot s || has_dot t.
Proof.
  induction s as [|c s IH]; simpl; [done|]. by rewrite IH, orb_assoc.
Qed.

(** A definition path whose name has no dot determines its module path
    and its name. *)
Lemma defPath_split (M1 M2 n1 n2 : string) :
  M1 +:+ "." +:+ n1 = M2 +:+ "." +:+ n2 →
  has_dot n1 = false → has_dot n2 = false →
  M1 = M2 ∧ n1 = n2.
Proof.
  assert (Hdot : ∀ s t, has_dot (s +:+ "." +:+ t) = true).
  { intros s t. rewrite has_dot_app. change (has_dot ("." +:+ t)) with true.
    apply orb_true_r. }
  revert M2. induction M1 as [|c M1 IH]; intros [|c' M2].
  - intros Heq _ _. split; [done|]. apply (append_inj_r "."). exact Heq.
  - intros [= _ Heq] Hn1 _. change ("" +:+ n1) with n1 in Heq. subst n1.
    by rewrite Hdot in Hn1.
  - intros [= _ Heq] _ Hn2. change ("" +:+ n2) with n2 in Heq. subst n2.
    by rewrite Hdot in Hn2.
  - intros [= -> Heq] Hn1 Hn2. destruct (IH _ Heq Hn1 Hn2) as [-> ->]. done.
Qed.

Lemma list_to_map_reverse_last {V} (l1 l2 : list (string * V))
    (k : string) (v : V) :
  k ∉ l2.*1 →
  list_to_map (M:=gmap string V) (reverse (l1 ++ (k, v) :: l2)) !! k = Some v.
Proof.
  intros Hk. rewrite reverse_app, reverse_cons, <- app_assoc, list_to_map_app.
  rewrite lookup_union_r.
  - simpl. by rewrite lookup_insert_eq.
  - apply not_elem_of_list_to_map_1. by rewrite fmap_reverse, elem_of_reverse.
Qed.

(** A statement that has a name yields a definition of that name, and an
    import yields none. *)
Lemma buildDef_name (text : string) (statement : ast.ModuleLevelStatement)
    (typeNameToPath : string → ir.Path) :
  ir.name <$> buildDef text statement typeNameToPath
  = span text <$> ast.name statement.
Proof. by destruct statement. Qed.

Lemma builtDefs_names (moduleFile : ModuleFile) :
  ir.name <$> builtDefs moduleFile
  = declared_names (text (file moduleFile)) (ast_ moduleFile).
Proof.
  unfold builtDefs, declared_names, defStatements.
  induction (ast.statements (ast_ moduleFile)) as [|statement statements IH];
    [done|].
  pose proof (buildDef_name (text (file moduleFile)) statement
                (resolver moduleFile)) as Hname.
  rewrite filter_cons. simpl.
  destruct (ast.name statement) as [name|] eqn:Ename.
  - rewrite decide_True by done. simpl.
    destruct (buildDef _ statement _) as [def|]; [|done].
    simpl in *. injection Hname as ->. f_equal. exact IH.
  - rewrite decide_False by (by intros [? ?]). done.
Qed.

Lemma builtDefs_split (moduleFile : ModuleFile)
    (pre : list ast.ModuleLevelStatement) (statement : ast.ModuleLevelStatement)
    (post : list ast.ModuleLevelStatement) (def : ir.Def) :
  ast.statements (ast_ moduleFile) = pre ++ statement :: post →
  buildDef (text (file moduleFile)) statement (resolver moduleFile) = Some def →
  ∃ before after,
    builtDefs moduleFile = before ++ def :: after
    ∧ ∀ def', def' ∈ after →
        ∃ later name,
          later ∈ post ∧ ast.name later = Some name
          ∧ ir.name def' = span (text (file moduleFile)) name.
Proof.
  intros Hstatements Hdef. unfold builtDefs, defStatements.
  rewrite Hstatements, filter_app, filter_cons_True, omap_app.
  - simpl. rewrite Hdef. eexists _, _. split; [reflexivity|].
    intros def' (later & Hlater & Hdef')%list_elem_of_omap.
    apply list_elem_of_filter in Hlater as [[name Hname] Hlater].
    exists later, name. split_and!; [done..|].
    pose proof (buildDef_name (text (file moduleFile)) later
                  (resolver moduleFile)) as Heq.
    rewrite Hdef', Hname in Heq. simpl in Heq. by injection Heq.
  - pose proof (buildDef_name (text (file moduleFile)) statement
                  (resolver moduleFile)) as Heq.
    rewrite Hdef in Heq. simpl in Heq.
    destruct (ast.name statement); [by eexists|done].
Qed.

(** Last write wins within one module: after the turn of the loop for a
    module file, the entry of the path of a definition is the definition
    built from the last statement of that name. *)
Lemma buildModule_last_definition_wins (acc : BuildBdlIrResult)
    (moduleFile : ModuleFile)
    (pre : list ast.ModuleLevelStatement) (statement : ast.ModuleLevelStatement)
    (post : list ast.ModuleLevelStatement) (def : ir.Def) :
  ast.statements (ast_ moduleFile) = pre ++ statement :: post →
  buildDef (text (file moduleFile)) statement (resolver moduleFile) = Some def →
  (∀ later name,
     later ∈ post → ast.name later = Some name →
     span (text (file moduleFile)) name ≠ ir.name def) →
  ir.defs (ir_ (buildModule acc moduleFile))
    !! (modulePath moduleFile +:+ "." +:+ ir.name def)
  = Some def.
Proof.
  intros Hstatements Hdef Hlast.
  destruct (builtDefs_split _ _ _ _ _ Hstatements Hdef)
    as (before & after & Hbuilt & Hafter).
  rewrite buildModule_spec. simpl. rewrite Hbuilt, fmap_app, fmap_cons.
  apply lookup_union_Some_l.
  apply (list_to_map_reverse_last _ _ (defPath (modulePath moduleFile) def)).
  rewrite <- list_fmap_compose.
  intros (def' & Heq & Hdef')%list_elem_of_fmap. simpl in Heq.
  apply append_inj_r, (append_inj_r ".") in Heq.
  destruct (Hafter _ Hdef') as (later & name & Hlater & Hname & Hdef'name).
  apply (Hlast later name Hlater Hname). congruence.
Qed.

Lemma foldl_buildModule_defs_unwritten (acc : BuildBdlIrResult)
    (moduleFiles : list ModuleFile) (path : string) :
  (∀ moduleFile def,
     moduleFile ∈ moduleFiles → def ∈ builtDefs moduleFile →
     defPath (modulePath moduleFile) def ≠ path) →
  ir.defs (ir_ (foldl buildModule acc moduleFiles)) !! path
  = ir.defs (ir_ acc) !! path.
Proof.
  induction moduleFiles as [|moduleFile moduleFiles IH] using rev_ind;
    intros Hunwritten; [done|].
  rewrite foldl_snoc, buildModule_spec. simpl. rewrite lookup_union_r.
  - apply IH. intros mf def Hmf. apply Hunwritten. set_solver.
  - apply not_elem_of_list_to_map_1.
    rewrite fmap_reverse, elem_of_reverse, <- list_fmap_compose.
    intros (def & Heq & Hdef)%list_elem_of_fmap.
    apply (Hunwritten moduleFile def); [set_solver|done|by rewrite Heq].
Qed.

Lemma occurrences_defPath (modulePath name : string) (names : list string) :
  occurrences (modulePath +:+ "." +:+ name)
    ((λ name, modulePath +:+ "." +:+ name) <$> names)
  = occurrences name names.
Proof.
  unfold occurrences. induction names as [|name' names IH]; [done|].
  rewrite fmap_cons, !filter_cons.
  destruct (decide (name' = name)) as [->|Hne].
  - rewrite decide_True by done. simpl. by rewrite IH.
  - rewrite decide_False; [done|].
    by intros Heq%append_inj_r%(append_inj_r ".").
Qed.

(** A key of the module map of a result is the path of a module file
    that the traversal fetched, and its entry is the record built from
    that file. *)
Lemma module_of_result (config : BuildBdlIrConfig) (fuel : nat)
    (result : BuildBdlIrResult) (M : string) (module : ir.Module_) :
  buildBdlIr fuel config = Returned result →
  ir.modules (ir_ result) !! M = Some module →
  ∃ moduleFile,
    fetch (resolveModuleFile config) M = inr moduleFile
    ∧ modulePath moduleFile = M
    ∧ module = builtModule moduleFile.
Proof.
  unfold buildBdlIr.
  destruct (gather fuel config) as [moduleFiles| |] eqn:Hrun; [|done..].
  intros [= <-] Hmodule.
  destruct (gather_reachable _ _ _ Hrun) as (Hnodup & Hpaths & Hfetch).
  assert (M ∈ (modulePath <$> moduleFiles))
    as (moduleFile & -> & Hin)%list_elem_of_fmap.
  { apply (elem_of_list_to_set (C:=gset string)).
    apply elem_of_dom_2 in Hmodule.
    rewrite foldl_buildModule_dom in Hmodule. simpl in Hmodule.
    set_solver. }
  exists moduleFile. split_and!; [by apply Hfetch|done|].
  destruct (foldl_buildModule_lookup
              {| asts := ∅; ir_ := {| ir.modules := ∅; ir.defs := ∅ |} |}
              moduleFiles moduleFile Hnodup Hin) as [_ Hlookup].
  congruence.
Qed.

(** C10: the [defPaths] of a module of a result lists the path of each
    of its definitions, one entry for each declaration, in declaration
    order; so the path of a name that the module declares [k] times
    occurs [k] times in it, while [defs] holds one entry under that
    path. *)
Theorem defPaths_keep_duplicates (config : BuildBdlIrConfig) (fuel : nat)
    (result : BuildBdlIrResult) (M : string) (module : ir.Module_) :
  buildBdlIr fuel config = Returned result →
  ir.modules (ir_ result) !! M = Some module →
  ∃ moduleFile,
    fetch (resolveModuleFile config) M = inr moduleFile
    ∧ ir.defPaths module
      = (λ name, M +:+ "." +:+ name)
          <$> declared_names (text (file moduleFile)) (ast_ moduleFile)
    ∧ ∀ name,
        occurrences (M +:+ "." +:+ name) (ir.defPaths module)
        = occurrences name
            (declared_names (text (file moduleFile)) (ast_ moduleFile))
        ∧ (0 < occurrences name
                 (declared_names (text (file moduleFile)) (ast_ moduleFile)) →
           is_Some (ir.defs (ir_ result) !! (M +:+ "." +:+ name))).
Proof.
  intros Hbuild Hmodule.
  destruct (module_of_result _ _ _ _ _ Hbuild Hmodule)
    as (moduleFile & Hfetch & Hpath & ->).
  exists moduleFile. split; [done|].
  assert (Hpaths : ir.defPaths (builtModule moduleFile)
            = (λ name, M +:+ "." +:+ name)
                <$> declared_names (text (file moduleFile)) (ast_ moduleFile)).
  { simpl. rewrite <- builtDefs_names, <- list_fmap_compose, Hpath. done. }
  split; [done|]. intros name. split.
  - rewrite Hpaths. apply occurrences_defPath.
  - intros Hocc.
    apply (buildBdlIr_defPaths_resolve _ _ _ Hbuild M
             (builtModule moduleFile)); [done|].
    rewrite Hpaths. apply list_elem_of_fmap. exists name. split; [done|].
    unfold occurrences in Hocc.
    destruct (filter _ _) as [|name' l] eqn:Hfilter; [simpl in Hocc; lia|].
    assert (name' ∈ filter (λ y, y = name)
              (declared_names (text (file moduleFile)) (ast_ moduleFile)))
      as [-> ?]%list_elem_of_filter; [|done].
    rewrite Hfilter. by left.
Qed.

(** In the result of a build, the entry of the path of a definition of
    a module is the definition built from the last statement of that
    module that declares the name, when no name has a dot. *)
Lemma foldl_buildModule_last_definition_wins
    (acc : BuildBdlIrResult) (moduleFiles : list ModuleFile)
    (moduleFile : ModuleFile)
    (pre : list ast.ModuleLevelStatement) (statement : ast.ModuleLevelStatement)
    (post : list ast.ModuleLevelStatement) (def : ir.Def) :
  NoDup (modulePath <$> moduleFiles) →
  (∀ moduleFile' name,
     moduleFile' ∈ moduleFiles →
     name ∈ declared_names (text (file moduleFile')) (ast_ moduleFile') →
     has_dot name = false) →
  moduleFile ∈ moduleFiles →
  ast.statements (ast_ moduleFile) = pre ++ statement :: post →
  buildDef (text (file moduleFile)) statement (resolver moduleFile) = Some def →
  (∀ later name,
     later ∈ post → ast.name later = Some name →
     span (text (file moduleFile)) name ≠ ir.name def) →
  ir.defs (ir_ (foldl buildModule acc moduleFiles))
    !! (modulePath moduleFile +:+ "." +:+ ir.name def)
  = Some def.
Proof.
  intros Hnodup Hnames Hin Hstatements Hdef Hlast.
  apply list_elem_of_split in Hin as (before & after & ->).
  rewrite foldl_app. simpl.
  rewrite foldl_buildModule_defs_unwritten.
  { by eapply buildModule_last_definition_wins. }
  intros moduleFile' def' Hin' Hdef' Heq.
  assert (Hdot : ∀ mf d, mf ∈ before ++ moduleFile :: after →
                         d ∈ builtDefs mf → has_dot (ir.name d) = false).
  { intros mf d Hmf Hd. apply (Hnames mf); [done|].
    rewrite <- builtDefs_names. apply list_elem_of_fmap. by exists d. }
  apply defPath_split in Heq as [Heq _].
  - rewrite fmap_app, fmap_cons in Hnodup.
    apply NoDup_app in Hnodup as (_ & _ & Hnodup).
    apply NoDup_cons in Hnodup as [Hnot _]. apply Hnot.
    rewrite <- Heq. apply list_elem_of_fmap. by exists moduleFile'.
  - apply (Hdot moduleFile'); [set_solver|done].
  - apply (Hdot moduleFile); [set_solver|].
    destruct (builtDefs_split _ _ _ _ _ Hstatements Hdef)
      as (l1 & l2 & -> & _). set_solver.
Qed.

(** C8: in a program with finitely many reachable modules that all
    resolve and parse, a module may declare a name several times: the
    build raises no error, it returns, and the entry of [defs] under the
    path of that name is the definition built from the last statement of
    the module that declares it.  The names of definitions are taken to
    be free of dots, as identifiers are, so that no other module writes
    under the same path. *)
Theorem last_definition_wins (config : BuildBdlIrConfig) (R : gset string)
    (M : string) (moduleFile : ModuleFile)
    (pre : list ast.ModuleLevelStatement) (statement : ast.ModuleLevelStatement)
    (post : list ast.ModuleLevelStatement) (def : ir.Def) :
  (∀ p, reachable config p → p ∈ R) →
  (∀ p, reachable config p →
        ∃ moduleFile, fetch (resolveModuleFile config) p = inr moduleFile) →
  (∀ p moduleFile' name,
     fetch (resolveModuleFile config) p = inr moduleFile' →
     name ∈ declared_names (text (file moduleFile')) (ast_ moduleFile') →
     has_dot name = false) →
  reachable config M →
  fetch (resolveModuleFile config) M = inr moduleFile →
  ast.statements (ast_ moduleFile) = pre ++ statement :: post →
  buildDef (text (file moduleFile)) statement (resolver moduleFile) = Some def →
  (∀ later name,
     later ∈ post → ast.name later = Some name →
     span (text (file moduleFile)) name ≠ ir.name def) →
  ∃ fuel result,
    (∀ fuel', fuel ≤ fuel' → buildBdlIr fuel' config = Returned result)
    ∧ ir.defs (ir_ result) !! (M +:+ "." +:+ ir.name def) = Some def.
Proof.
  intros HR Hok Hnames HM Hfetch Hstatements Hdef Hlast.
  destruct (buildBdlIr_returns config R HR Hok) as (fuel & moduleFiles & Hrun).
  destruct (Hrun fuel (le_n _)) as [Hgather _].
  destruct (gather_reachable _ _ _ Hgather) as (Hnodup & Hpaths & Hfetched).
  eexists fuel, _. split; [intros fuel' Hle; by apply Hrun|].
  apply Hpaths in HM as (moduleFile' & -> & Hin)%list_elem_of_fmap.
  assert (moduleFile' = moduleFile) as ->.
  { apply Hfetched in Hin. congruence. }
  apply (foldl_buildModule_last_definition_wins _ _ _ pre statement post);
    [done| |done..].
  intros moduleFile' name Hin'.
  apply (Hnames (modulePath moduleFile')). by apply Hfetched.
Qed.

End Facts.

(** * Further properties *)

Section MoreFacts.

Context `{!AstUtils} `{!BdlParser}.

(** ** The symbol resolver, case by case *)

Lemma elem_of_localDefNames_declared (text : string) (ast : ast.BdlAst)
    (typeName : string) :
  typeName ∈ localDefNames text (defStatements ast)
  ↔ typeName ∈ declared_names text ast.
Proof.
  rewrite elem_of_localDefNames. unfold declared_names.
  rewrite list_elem_of_omap. split.
  - intros (statement & name & Hin & Hname & <-).
    exists statement. by rewrite Hname.
  - intros (statement & Hin & Hname).
    destruct (ast.name statement) as [name|] eqn:E; [|done].
    injection Hname as <-. by exists statement, name.
Qed.

(** X1: the resolution function of a module, on every name.  A name that
    a statement of the module declares resolves to the path of the
    module followed by the name, whatever the imports bind.  Any other
    name that an import item binds resolves to the target of the
    binding.  A name that is neither declared nor bound comes back
    unchanged, unless it is one of the names that every object inherits
    from [Object.prototype]: for those the inherited member comes
    back. *)
Theorem resolver_cases (moduleFile : ModuleFile) (typeName : string) :
  (typeName ∈ declared_names (text (file moduleFile)) (ast_ moduleFile) →
   resolver moduleFile typeName
   = ir.Str (modulePath moduleFile +:+ "." +:+ typeName))
  ∧ (∀ typePath,
       typeName ∉ declared_names (text (file moduleFile)) (ast_ moduleFile) →
       importedNames (imports (text (file moduleFile)) (ast_ moduleFile))
         !! typeName = Some typePath →
       resolver moduleFile typeName = ir.Str typePath)
  ∧ (typeName ∉ declared_names (text (file moduleFile)) (ast_ moduleFile) →
     importedNames (imports (text (file moduleFile)) (ast_ moduleFile))
       !! typeName = None →
     typeName ∉ Object_prototype_keys →
     resolver moduleFile typeName = ir.Str typeName)
  ∧ (typeName ∉ declared_names (text (file moduleFile)) (ast_ moduleFile) →
     importedNames (imports (text (file moduleFile)) (ast_ moduleFile))
       !! typeName = None →
     typeName ∈ Object_prototype_keys →
     resolver moduleFile typeName = ir.ObjectPrototypeMember typeName).
Proof.
  unfold resolver. split_and!.
  - intros Hlocal. apply typeNameToPath_local.
    by apply elem_of_localDefNames_declared.
  - intros typePath Hlocal Himported. apply typeNameToPath_imported; [|done].
    by rewrite elem_of_localDefNames_declared.
  - intros Hlocal Himported Hproto. apply typeNameToPath_unresolved; [|done..].
    by rewrite elem_of_localDefNames_declared.
  - intros Hlocal Himported Hproto. apply typeNameToPath_inherited; [|done..].
    by rewrite elem_of_localDefNames_declared.
Qed.

(** ** The imported-name map, binding by binding *)

Lemma importedNames_bindings (imports : list ir.Import) :
  importedNames imports = list_to_map (reverse (import_bindings imports)).
Proof.
  unfold importedNames.
  rewrite importedNames_foldl, foldl_insert_bindings.
  by rewrite (right_id_L ∅ (∪)).
Qed.

Lemma import_bindings_app (imports1 imports2 : list ir.Import) :
  import_bindings (imports1 ++ imports2)
  = import_bindings imports1 ++ import_bindings imports2.
Proof. unfold import_bindings. apply flat_map_app. Qed.

Lemma elem_of_import_bindings_keys (imports : list ir.Import) (key : string) :
  key ∈ (import_bindings imports).*1 →
  ∃ importStatement importItem,
    importStatement ∈ imports
    ∧ importItem ∈ ir.items importStatement
    ∧ local_name importItem = key.
Proof.
  intros ([k v] & -> & Hin)%list_elem_of_fmap. simpl.
  apply list_elem_of_In, in_flat_map in Hin as (importStatement & Hi & Hin).
  apply list_elem_of_In, list_elem_of_fmap in Hin as (importItem & Hkv & Hin).
  exists importStatement, importItem. rewrite list_elem_of_In.
  split_and!; [done..|]. by injection Hkv as -> _.
Qed.

(** X2: on a collision of local names the last import item wins.  The
    name under which an import item is visible, its alias or else its
    declared name, is bound to the path of that item, provided no later
    item of the same import declaration and no item of a later import
    declaration is visible under the same name. *)
Theorem importedNames_last_binding_wins (pre : list ir.Import)
    (importStatement : ir.Import) (post : list ir.Import)
    (before : list ir.ImportItem) (importItem : ir.ImportItem)
    (after : list ir.ImportItem) :
  ir.items importStatement = before ++ importItem :: after →
  (∀ later, later ∈ after → local_name later ≠ local_name importItem) →
  (∀ laterStatement later,
     laterStatement ∈ post → later ∈ ir.items laterStatement →
     local_name later ≠ local_name importItem) →
  importedNames (pre ++ importStatement :: post) !! local_name importItem
  = Some (ir.modulePath importStatement +:+ "." +:+ ir.item_name importItem).
Proof.
  intros Hitems Hafter Hpost.
  rewrite importedNames_bindings, import_bindings_app.
  change (importStatement :: post) with ([importStatement] ++ post).
  rewrite import_bindings_app.
  assert (import_bindings [importStatement]
          = map (λ importItem,
                   (local_name importItem,
                    ir.modulePath importStatement +:+ "."
                      +:+ ir.item_name importItem)) before
            ++ (local_name importItem,
                ir.modulePath importStatement +:+ "." +:+ ir.item_name importItem)
            :: map (λ importItem,
                      (local_name importItem,
                       ir.modulePath importStatement +:+ "."
                         +:+ ir.item_name importItem)) after) as ->.
  { unfold import_bindings. simpl. rewrite app_nil_r, Hitems.
    by rewrite map_app. }
  rewrite <- !app_assoc, (app_assoc (import_bindings pre)).
  rewrite <- app_comm_cons.
  apply list_to_map_reverse_last.
  rewrite fmap_app.
  intros [Hin|Hin]%elem_of_app.
  - apply list_elem_of_fmap in Hin as ([k v] & Hk & Hin). simpl in Hk.
    apply list_elem_of_In, in_map_iff in Hin as (later & [= <- <-] & Hin).
    apply (Hafter later); [by apply list_elem_of_In|done].
  - apply elem_of_import_bindings_keys in Hin
      as (laterStatement & later & Hs & Hl & Heq).
    by apply (Hpost laterStatement later).
Qed.

(** ** Sockets: declaration order *)

Lemma find_unique {A} (p : A → bool) (l : list A) (x : A) :
  x ∈ l → p x = true →
  (∀ y, y ∈ l → p y = true → y = x) →
  List.find p l = Some x.
Proof.
  induction l as [|z l IH]; intros Hin Hx Hunique.
  { by apply elem_of_nil in Hin. }
  simpl. destruct (p z) eqn:Hz.
  - f_equal. apply Hunique; [by left|done].
  - apply IH; [|done|].
    + apply elem_of_cons in Hin as [->|Hin]; [congruence|done].
    + intros y Hy. apply Hunique. by right.
Qed.

Lemma find_permutation {A} (p : A → bool) (l l' : list A) :
  l ≡ₚ l' →
  (∀ x y, x ∈ l → y ∈ l → p x = true → p y = true → x = y) →
  List.find p l = List.find p l'.
Proof.
  intros Hperm Hunique.
  destruct (List.find p l) as [x|] eqn:Hfind.
  - apply find_some in Hfind as [Hin Hx]. apply list_elem_of_In in Hin.
    symmetry. apply find_unique; [by rewrite <- Hperm|done|].
    intros y Hy Hpy. rewrite <- Hperm in Hy. by apply Hunique.
  - symmetry. apply find_nothing. intros y Hy. rewrite <- Hperm in Hy.
    apply (find_none _ _ Hfind). by apply list_elem_of_In.
Qed.

(** X3: when a socket statement has at most one item for each direction,
    the order in which its items are declared does not matter: a
    statement with the same items in another order builds the same
    body. *)
Theorem buildSocket_order_irrelevant (text : string)
    (statement statement' : ast.Socket) (typeNameToPath : string → ir.Path) :
  ast.socket_items statement ≡ₚ ast.socket_items statement' →
  (∀ item item',
     item ∈ ast.socket_items statement → item' ∈ ast.socket_items statement →
     directed text "server" "client" item →
     directed text "server" "client" item' → item = item') →
  (∀ item item',
     item ∈ ast.socket_items statement → item' ∈ ast.socket_items statement →
     directed text "client" "server" item →
     directed text "client" "server" item' → item = item') →
  buildSocket text statement typeNameToPath
  = buildSocket text statement' typeNameToPath.
Proof.
  intros Hperm Hs Hc. unfold buildSocket.
  rewrite (find_permutation (is_serverToClient text) _ _ Hperm),
          (find_permutation (is_clientToServer text) _ _ Hperm); [done|..].
  - intros x y Hx Hy Hpx Hpy.
    apply Hc; [done..| |]; by apply is_clientToServer_spec.
  - intros x y Hx Hy Hpx Hpy.
    apply Hs; [done..| |]; by apply is_serverToClient_spec.
Qed.

(** ** The dispatch of [buildDef] *)

(** X4: only an import builds no definition.  The definition built from
    any other statement carries the name and the attributes of the
    statement, its body has the shape of the kind of the statement, and
    it keeps the items of the statement one for one and in declaration
    order: the names of the items of an enumeration, of the methods of
    an rpc, of the fields of a struct and of the variants of a union are
    those of the statement, none dropped, none added, none moved. *)
Theorem buildDef_follows_statement (text : string)
    (statement : ast.ModuleLevelStatement) (typeNameToPath : string → ir.Path) :
  (buildDef text statement typeNameToPath = None
   ↔ statement_kind statement = KImport)
  ∧ (∀ def,
       buildDef text statement typeNameToPath = Some def →
       body_kind (ir.body def) = statement_kind statement
       ∧ Some (ir.name def) = span text <$> ast.name statement
       ∧ ir.attributes def
         = buildAttributes text (ast.statement_attributes statement)
       ∧ body_item_names (ir.body def) = item_names text statement).
Proof.
  split.
  - by destruct statement.
  - intros def. destruct statement; simpl; intros [= <-]; simpl;
      split_and!; try done; by rewrite map_map.
Qed.

(** ** Type names and the resolution function *)

Lemma buildType_ext (text : string) (type : ast.TypeExpression)
    (f g : string → ir.Path) :
  (∀ typeName, typeName ∈ type_expression_names text type →
               f typeName = g typeName) →
  buildType text type f = buildType text type g.
Proof.
  unfold buildType, type_expression_names. intros Hfg.
  rewrite (Hfg (span text (ast.valueType type))) by left.
  destruct (ast.container type) as [container|]; [|done].
  destruct (ast.keyType container) as [keyType|]; [|done].
  rewrite (Hfg (span text keyType)); [done|]. right. by left.
Qed.

Lemma buildStructFields_ext (text : string) (fields : list ast.StructField)
    (f g : string → ir.Path) :
  (∀ typeName, typeName ∈ field_type_names text fields →
               f typeName = g typeName) →
  map (λ field, buildStructField text field f) fields
  = map (λ field, buildStructField text field g) fields.
Proof.
  intros Hfg. apply map_ext_in. intros field Hfield.
  unfold buildStructField. f_equal. apply buildType_ext.
  intros typeName Hin. apply Hfg. unfold field_type_names.
  apply list_elem_of_In, in_flat_map. exists field.
  split; [done|]. by apply list_elem_of_In.
Qed.

(** X5: a definition depends on the resolution function only through
    the type names that its statement mentions: two resolution functions
    that agree on these names build the same definition.  In
    particular the definition built from an enumeration does not depend
    on the resolution function at all. *)
Theorem buildDef_depends_on_mentioned_names (text : string)
    (statement : ast.ModuleLevelStatement) (f g : string → ir.Path) :
  (∀ typeName, typeName ∈ type_names text statement →
               f typeName = g typeName) →
  buildDef text statement f = buildDef text statement g.
Proof.
  intros Hfg.
  assert (Hflat : ∀ {A} (names : A → list string) (l : list A) (x : A)
                    (typeName : string),
            In x l → typeName ∈ names x → typeName ∈ flat_map names l).
  { intros A names l x typeName Hx Hin.
    apply list_elem_of_In, in_flat_map. exists x.
    split; [done|]. by apply list_elem_of_In. }
  destruct statement as [s|s|s|s|s|s|s]; unfold buildDef; simpl in *;
    [done|done|..]; do 2 f_equal.
  - unfold buildRpc. f_equal. apply map_ext_in. intros item Hitem.
    assert (Hitem' : ∀ typeName,
              typeName ∈ (type_expression_names text (ast.inputType item)
                 ++ type_expression_names text (ast.outputType item)
                 ++ match ast.error item with
                    | Some e => type_expression_names text (ast.errorType e)
                    | None => []
                    end) →
              f typeName = g typeName).
    { intros typeName Hin. apply Hfg. by eapply (Hflat _ _ _ item). }
    f_equal.
    + apply buildType_ext. intros typeName Hin. apply Hitem'. set_solver.
    + apply buildType_ext. intros typeName Hin. apply Hitem'. set_solver.
    + destruct (ast.error item) as [e|]; [|done]. simpl. f_equal.
      apply buildType_ext. intros typeName Hin. apply Hitem'. set_solver.
  - unfold buildScalar. f_equal. by apply buildType_ext.
  - unfold buildSocket.
    assert (Hitem : ∀ p item,
              List.find p (ast.socket_items s) = Some item →
              buildSocketItem text item f = buildSocketItem text item g).
    { intros p item [Hin _]%find_some. unfold buildSocketItem. f_equal.
      apply buildType_ext. intros typeName Hname. apply Hfg.
      by eapply (Hflat _ _ _ item). }
    f_equal.
    + destruct (List.find (is_serverToClient text) _) as [item|] eqn:Hfind;
        [|done].
      simpl. f_equal. by eapply Hitem.
    + destruct (List.find (is_clientToServer text) _) as [item|] eqn:Hfind;
        [|done].
      simpl. f_equal. by eapply Hitem.
  - unfold buildStruct. f_equal. by apply buildStructFields_ext.
  - unfold buildUnion. f_equal. apply map_ext_in. intros item Hitem.
    f_equal. destruct (ast.struct item) as [fields|] eqn:Hstruct; [|done].
    apply buildStructFields_ext. intros typeName Hin. apply Hfg.
    eapply (Hflat _ _ _ item); [done|]. by rewrite Hstruct.
Qed.

(** ** Paths that are already visited *)

(** X6: the traversal never fetches a path that is already visited.  On
    a queue of visited paths the loop ends without a single call of the
    module-resolution capability, whatever that capability would
    answer, and yields nothing, once the fuel allows one turn for each
    path of the queue and one more. *)
Theorem gather_loop_skips_visited
    (resolveModuleFile : string → Exn + ResolveModuleFileResult)
    (fuel : nat) (queue : list string) (visited : gset string) :
  (∀ p, p ∈ queue → p ∈ visited) →
  length queue < fuel →
  gather_loop resolveModuleFile fuel queue visited = Returned [].
Proof.
  revert fuel. induction queue as [|p queue IH] using rev_ind;
    intros fuel Hvisited Hfuel.
  { destruct fuel; [simpl in Hfuel; lia|done]. }
  destruct fuel as [|fuel]; [lia|].
  rewrite gather_loop_snoc, decide_True by set_solver.
  apply IH; [set_solver|]. rewrite length_app in Hfuel. simpl in Hfuel. lia.
Qed.

(** ** The maps of a result, entry by entry *)

Lemma buildBdlIr_Returned (config : BuildBdlIrConfig) (fuel : nat)
    (result : BuildBdlIrResult) :
  buildBdlIr fuel config = Returned result →
  ∃ moduleFiles,
    gather fuel config = Returned moduleFiles
    ∧ result
      = foldl buildModule
          {| asts := ∅; ir_ := {| ir.modules := ∅; ir.defs := ∅ |} |}
          moduleFiles.
Proof.
  unfold buildBdlIr.
  destruct (gather fuel config) as [moduleFiles| |]; [|done..].
  intros [= <-]. by exists moduleFiles.
Qed.

(** The module files of a traversal that returns are the files fetched
    for the reachable paths. *)
Lemma gather_files (config : BuildBdlIrConfig) (fuel : nat)
    (moduleFiles : list ModuleFile) (moduleFile : ModuleFile) :
  gather fuel config = Returned moduleFiles →
  moduleFile ∈ moduleFiles
  ↔ reachable config (modulePath moduleFile)
    ∧ fetch (resolveModuleFile config) (modulePath moduleFile) = inr moduleFile.
Proof.
  intros (Hnodup & Hpaths & Hfetch)%gather_reachable. split.
  - intros Hin. split; [|by apply Hfetch].
    apply Hpaths, list_elem_of_fmap. by exists moduleFile.
  - intros [Hreach Hfetched].
    apply Hpaths in Hreach as (moduleFile' & Hpath & Hin)%list_elem_of_fmap.
    apply Hfetch in Hin as Hfetched'. rewrite <- Hpath in Hfetched'.
    congruence.
Qed.

Lemma fetch_inr (resolveModuleFile : string → Exn + ResolveModuleFileResult)
    (p : string) (moduleFile : ModuleFile) :
  fetch resolveModuleFile p = inr moduleFile
  ↔ resolveModuleFile p = inr (file moduleFile)
    ∧ parseBdl (text (file moduleFile)) = inr (ast_ moduleFile)
    ∧ modulePath moduleFile = p.
Proof.
  unfold fetch. destruct moduleFile as [r q tree]. simpl. split.
  - destruct (resolveModuleFile p) as [e|r']; [done|].
    destruct (parseBdl (text r')) as [e|tree'] eqn:Hparse; [done|].
    intros [= -> -> ->]. by rewrite Hparse.
  - intros (-> & -> & ->). done.
Qed.

Lemma foldl_buildModule_asts_dom (acc : BuildBdlIrResult)
    (moduleFiles : list ModuleFile) :
  dom (asts (foldl buildModule acc moduleFiles))
  = list_to_set (modulePath <$> moduleFiles) ∪ dom (asts acc).
Proof.
  induction moduleFiles as [|moduleFile moduleFiles IH] using rev_ind.
  { simpl. set_solver. }
  rewrite foldl_snoc, buildModule_spec. simpl.
  rewrite dom_insert_L, IH, fmap_app, list_to_set_app_L. simpl. set_solver.
Qed.

Lemma foldl_buildModule_asts_lookup (moduleFiles : list ModuleFile)
    (p : string) (tree : ast.BdlAst) :
  NoDup (modulePath <$> moduleFiles) →
  asts (foldl buildModule
          {| asts := ∅; ir_ := {| ir.modules := ∅; ir.defs := ∅ |} |}
          moduleFiles) !! p = Some tree
  ↔ ∃ moduleFile,
      moduleFile ∈ moduleFiles
      ∧ modulePath moduleFile = p ∧ ast_ moduleFile = tree.
Proof.
  intros Hnodup. split.
  - intros Hlookup.
    assert (p ∈ (modulePath <$> moduleFiles))
      as (moduleFile & -> & Hin)%list_elem_of_fmap.
    { apply (elem_of_list_to_set (C:=gset string)).
      apply elem_of_dom_2 in Hlookup.
      rewrite foldl_buildModule_asts_dom in Hlookup. simpl in Hlookup.
      set_solver. }
    exists moduleFile. split_and!; [done..|].
    destruct (foldl_buildModule_lookup
                {| asts := ∅; ir_ := {| ir.modules := ∅; ir.defs := ∅ |} |}
                moduleFiles moduleFile Hnodup Hin) as [Hast _].
    congruence.
  - intros (moduleFile & Hin & <- & <-).
    by apply foldl_buildModule_lookup.
Qed.

Lemma foldl_buildModule_modules_lookup (moduleFiles : list ModuleFile)
    (p : string) (module : ir.Module_) :
  NoDup (modulePath <$> moduleFiles) →
  ir.modules (ir_ (foldl buildModule
          {| asts := ∅; ir_ := {| ir.modules := ∅; ir.defs := ∅ |} |}
          moduleFiles)) !! p = Some module
  ↔ ∃ moduleFile,
      moduleFile ∈ moduleFiles
      ∧ modulePath moduleFile = p ∧ builtModule moduleFile = module.
Proof.
  intros Hnodup. split.
  - intros Hlookup.
    assert (p ∈ (modulePath <$> moduleFiles))
      as (moduleFile & -> & Hin)%list_elem_of_fmap.
    { apply (elem_of_list_to_set (C:=gset string)).
      apply elem_of_dom_2 in Hlookup.
      rewrite foldl_buildModule_dom in Hlookup. simpl in Hlookup.
      set_solver. }
    exists moduleFile. split_and!; [done..|].
    destruct (foldl_buildModule_lookup
                {| asts := ∅; ir_ := {| ir.modules := ∅; ir.defs := ∅ |} |}
                moduleFiles moduleFile Hnodup Hin) as [_ Hmodule].
    congruence.
  - intros (moduleFile & Hin & <- & <-).
    by apply foldl_buildModule_lookup.
Qed.

(** X7: the syntax-tree map of a result has an entry for a path exactly
    when the path is reachable from the entries, and the entry is the
    tree that the parser returned for the text that the capability
    returned for that path: no reachable module is missing and no other
    key is there. *)
Theorem asts_hold_the_parsed_trees (config : BuildBdlIrConfig) (fuel : nat)
    (result : BuildBdlIrResult) (p : string) (tree : ast.BdlAst) :
  buildBdlIr fuel config = Returned result →
  asts result !! p = Some tree
  ↔ reachable config p
    ∧ ∃ resolveModuleFileResult,
        resolveModuleFile config p = inr resolveModuleFileResult
        ∧ parseBdl (text resolveModuleFileResult) = inr tree.
Proof.
  intros (moduleFiles & Hrun & ->)%buildBdlIr_Returned.
  destruct (gather_reachable _ _ _ Hrun) as (Hnodup & _ & _).
  rewrite foldl_buildModule_asts_lookup by done. split.
  - intros (moduleFile & Hin & <- & <-).
    apply (gather_files _ _ _ _ Hrun) in Hin as [Hreach Hfetch].
    apply fetch_inr in Hfetch as (Hresolve & Hparse & _).
    split; [done|]. by exists (file moduleFile).
  - intros (Hreach & r & Hresolve & Hparse).
    exists {| file := r; modulePath := p; ast_ := tree |}.
    split_and!; [|done..].
    apply (gather_files _ _ _ _ Hrun). split; [done|]. by apply fetch_inr.
Qed.

Lemma moduleDefs_lookup_Some (moduleFile : ModuleFile) (path : string)
    (def : ir.Def) :
  moduleDefs moduleFile !! path = Some def →
  def ∈ builtDefs moduleFile ∧ path = defPath (modulePath moduleFile) def.
Proof.
  unfold moduleDefs. intros Hin%elem_of_list_to_map_2.
  apply elem_of_reverse, list_elem_of_fmap in Hin as (def' & [= -> ->] & Hin).
  done.
Qed.

Lemma buildModule_defs (acc : BuildBdlIrResult) (moduleFile : ModuleFile) :
  ir.defs (ir_ (buildModule acc moduleFile))
  = moduleDefs moduleFile ∪ ir.defs (ir_ acc).
Proof. by rewrite buildModule_spec. Qed.

Lemma foldl_buildModule_defs_origin (acc : BuildBdlIrResult)
    (moduleFiles : list ModuleFile) (path : string) (def : ir.Def) :
  ir.defs (ir_ (foldl buildModule acc moduleFiles)) !! path = Some def →
  (∃ moduleFile,
     moduleFile ∈ moduleFiles ∧ moduleDefs moduleFile !! path = Some def)
  ∨ ir.defs (ir_ acc) !! path = Some def.
Proof.
  induction moduleFiles as [|moduleFile moduleFiles IH] using rev_ind;
    [by right|].
  rewrite foldl_snoc, buildModule_defs.
  intros [Hlast|[_ Hbefore]]%lookup_union_Some_raw.
  - left. exists moduleFile. split; [set_solver|done].
  - destruct (IH Hbefore) as [(moduleFile' & Hin & Hdefs)|Hacc]; [|by right].
    left. exists moduleFile'. split; [set_solver|done].
Qed.

(** X8: the converse of the invariant of the data model.  Every entry of
    [defs] in a result was built from a statement of a reachable module:
    its key is the path of that module followed by the name of the
    definition, and the key is listed in the [defPaths] of the [Module]
    record stored for that module. *)
Theorem defs_entries_come_from_modules (config : BuildBdlIrConfig)
    (fuel : nat) (result : BuildBdlIrResult) (path : string) (def : ir.Def) :
  buildBdlIr fuel config = Returned result →
  ir.defs (ir_ result) !! path = Some def →
  ∃ M moduleFile module,
    reachable config M
    ∧ fetch (resolveModuleFile config) M = inr moduleFile
    ∧ def ∈ builtDefs moduleFile
    ∧ path = M +:+ "." +:+ ir.name def
    ∧ ir.modules (ir_ result) !! M = Some module
    ∧ path ∈ ir.defPaths module.
Proof.
  intros (moduleFiles & Hrun & ->)%buildBdlIr_Returned Hdef.
  destruct (gather_reachable _ _ _ Hrun) as (Hnodup & _ & _).
  apply foldl_buildModule_defs_origin in Hdef
    as [(moduleFile & Hin & Hdef)|Hdef];
    [|simpl in Hdef; by rewrite lookup_empty in Hdef].
  apply moduleDefs_lookup_Some in Hdef as [Hbuilt ->].
  exists (modulePath moduleFile), moduleFile, (builtModule moduleFile).
  apply (gather_files _ _ _ _ Hrun) in Hin as Hfile. destruct Hfile as [? ?].
  split_and!; [done..| |].
  - by apply foldl_buildModule_lookup.
  - simpl. apply list_elem_of_fmap. by exists def.
Qed.

(** ** The order of the traversal *)

Lemma moduleDefs_same_module (moduleFile1 moduleFile2 : ModuleFile)
    (path : string) :
  (∀ name, name ∈ declared_names (text (file moduleFile1)) (ast_ moduleFile1) →
           has_dot name = false) →
  (∀ name, name ∈ declared_names (text (file moduleFile2)) (ast_ moduleFile2) →
           has_dot name = false) →
  is_Some (moduleDefs moduleFile1 !! path) →
  is_Some (moduleDefs moduleFile2 !! path) →
  modulePath moduleFile1 = modulePath moduleFile2.
Proof.
  intros Hdot1 Hdot2 [d1 [Hd1 ->]%moduleDefs_lookup_Some]
                     [d2 [Hd2 Heq]%moduleDefs_lookup_Some].
  apply defPath_split in Heq as [Heq _]; [done|..].
  - apply Hdot1. rewrite <- builtDefs_names.
    apply list_elem_of_fmap. by exists d1.
  - apply Hdot2. rewrite <- builtDefs_names.
    apply list_elem_of_fmap. by exists d2.
Qed.

Lemma foldl_buildModule_defs_written (acc : BuildBdlIrResult)
    (moduleFiles : list ModuleFile) (path : string) (def : ir.Def) :
  NoDup (modulePath <$> moduleFiles) →
  (∀ moduleFile name,
     moduleFile ∈ moduleFiles →
     name ∈ declared_names (text (file moduleFile)) (ast_ moduleFile) →
     has_dot name = false) →
  (∃ moduleFile,
     moduleFile ∈ moduleFiles ∧ moduleDefs moduleFile !! path = Some def) →
  ir.defs (ir_ (foldl buildModule acc moduleFiles)) !! path = Some def.
Proof.
  induction moduleFiles as [|last moduleFiles IH] using rev_ind;
    intros Hnodup Hdot (moduleFile & Hin & Hdef).
  { by apply elem_of_nil in Hin. }
  rewrite foldl_snoc, buildModule_defs.
  rewrite fmap_app in Hnodup.
  apply NoDup_app in Hnodup as (Hnodup & Hlast & _).
  apply elem_of_app in Hin as [Hin|Hin].
  - rewrite lookup_union_r.
    + apply IH; [done| |by exists moduleFile].
      intros mf name Hmf. apply Hdot. set_solver.
    + destruct (moduleDefs last !! path) as [d|] eqn:Hd; [|done].
      exfalso. apply (Hlast (modulePath moduleFile)).
      * apply list_elem_of_fmap. by exists moduleFile.
      * rewrite (moduleDefs_same_module moduleFile last path); [by left|..].
        -- intros name. apply Hdot. set_solver.
        -- intros name. apply Hdot. set_solver.
        -- by eexists.
        -- by eexists.
  - apply list_elem_of_singleton in Hin as ->. by apply lookup_union_Some_l.
Qed.

(** X9: the order of the entries changes the order of the traversal, and
    with it the order in which the keys of [asts], [ir.modules] and
    [ir.defs] are inserted, but not what is found under each key.  Two
    builds with the same capability, from entry lists that hold the same
    paths, in any order and any number of times, return results with
    the same tree, the same [Module] record and the same definition
    under every key, when the names of definitions have no dot. *)
Theorem entry_order_keeps_the_entries (config1 config2 : BuildBdlIrConfig)
    (fuel1 fuel2 : nat) (result1 result2 : BuildBdlIrResult) :
  resolveModuleFile config1 = resolveModuleFile config2 →
  (∀ p, p ∈ entryModulePaths config1 ↔ p ∈ entryModulePaths config2) →
  (∀ p moduleFile name,
     fetch (resolveModuleFile config1) p = inr moduleFile →
     name ∈ declared_names (text (file moduleFile)) (ast_ moduleFile) →
     has_dot name = false) →
  buildBdlIr fuel1 config1 = Returned result1 →
  buildBdlIr fuel2 config2 = Returned result2 →
  (∀ p, asts result1 !! p = asts result2 !! p)
  ∧ (∀ p, ir.modules (ir_ result1) !! p = ir.modules (ir_ result2) !! p)
  ∧ (∀ path,
       ir.defs (ir_ result1) !! path = ir.defs (ir_ result2) !! path).
Proof.
  intros Hresolve Hentries Hdot
    (files1 & Hrun1 & ->)%buildBdlIr_Returned
    (files2 & Hrun2 & ->)%buildBdlIr_Returned.
  destruct (gather_reachable _ _ _ Hrun1) as (Hnodup1 & _ & Hfetch1).
  destruct (gather_reachable _ _ _ Hrun2) as (Hnodup2 & _ & Hfetch2).
  assert (Hreach : ∀ p, reachable config1 p ↔ reachable config2 p).
  { intros p. unfold reachable. rewrite Hresolve.
    split; apply reachable_from_mono; intros q Hq;
      apply reachable_seed; by apply Hentries. }
  assert (Hfiles : ∀ moduleFile, moduleFile ∈ files1 ↔ moduleFile ∈ files2).
  { intros moduleFile.
    rewrite (gather_files _ _ _ _ Hrun1), (gather_files _ _ _ _ Hrun2).
    by rewrite Hreach, Hresolve. }
  assert (Hdot1 : ∀ moduleFile name,
            moduleFile ∈ files1 →
            name ∈ declared_names (text (file moduleFile)) (ast_ moduleFile) →
            has_dot name = false).
  { intros moduleFile name Hin.
    apply (Hdot (modulePath moduleFile)). by apply Hfetch1. }
  assert (Hdot2 : ∀ moduleFile name,
            moduleFile ∈ files2 →
            name ∈ declared_names (text (file moduleFile)) (ast_ moduleFile) →
            has_dot name = false).
  { intros moduleFile name Hin. apply Hdot1. by apply Hfiles. }
  split_and!; intros k; apply option_eq; intros x.
  - rewrite !foldl_buildModule_asts_lookup by done.
    by setoid_rewrite Hfiles.
  - rewrite !foldl_buildModule_modules_lookup by done.
    by setoid_rewrite Hfiles.
  - split; intros Hx.
    + apply foldl_buildModule_defs_written; [done..|].
      apply foldl_buildModule_defs_origin in Hx
        as [(moduleFile & Hin & Hx)|Hx];
        [|simpl in Hx; by rewrite lookup_empty in Hx].
      exists moduleFile. by rewrite <- Hfiles.
    + apply foldl_buildModule_defs_written; [done..|].
      apply foldl_buildModule_defs_origin in Hx
        as [(moduleFile & Hin & Hx)|Hx];
        [|simpl in Hx; by rewrite lookup_empty in Hx].
      exists moduleFile. by rewrite Hfiles.
Qed.

(** ** One turn of the loop and the rest of the result *)

(** X10: one turn of the loop of [buildBdlIr] writes the tree and the
    [Module] record of its module file under the path of the module and
    leaves the entries of every other path as they were; in [defs] it
    leaves every entry whose key is not the path of one of the
    definitions of the module, and it removes no key. *)
Theorem buildModule_writes_its_own_entries (acc : BuildBdlIrResult)
    (moduleFile : ModuleFile) :
  asts (buildModule acc moduleFile) !! modulePath moduleFile
  = Some (ast_ moduleFile)
  ∧ ir.modules (ir_ (buildModule acc moduleFile)) !! modulePath moduleFile
    = Some (builtModule moduleFile)
  ∧ (∀ p, p ≠ modulePath moduleFile →
       asts (buildModule acc moduleFile) !! p = asts acc !! p
       ∧ ir.modules (ir_ (buildModule acc moduleFile)) !! p
         = ir.modules (ir_ acc) !! p)
  ∧ (∀ path,
       (∀ def, def ∈ builtDefs moduleFile →
               modulePath moduleFile +:+ "." +:+ ir.name def ≠ path) →
       ir.defs (ir_ (buildModule acc moduleFile)) !! path
       = ir.defs (ir_ acc) !! path)
  ∧ (∀ path,
       is_Some (ir.defs (ir_ acc) !! path) →
       is_Some (ir.defs (ir_ (buildModule acc moduleFile)) !! path)).
Proof.
  split_and!.
  - rewrite buildModule_spec. simpl. apply lookup_insert_eq.
  - rewrite buildModule_spec. simpl. apply lookup_insert_eq.
  - intros p Hp. rewrite buildModule_spec. simpl.
    by rewrite !lookup_insert_ne.
  - intros path Hpath.
    apply (foldl_buildModule_defs_unwritten acc [moduleFile] path).
    intros mf def ->%list_elem_of_singleton Hdef. by apply Hpath.
  - intros path [def Hdef]. rewrite buildModule_defs, lookup_union, Hdef.
    by destruct (moduleDefs moduleFile !! path).
Qed.

(** ** References to local definitions *)

(** X11: a reference to a name that a module declares does not dangle.
    In a result, the resolution function of a reachable module sends
    each name that the module declares to a string that is a key of
    [defs]. *)
Theorem local_references_resolve (config : BuildBdlIrConfig) (fuel : nat)
    (result : BuildBdlIrResult) (M : string) (moduleFile : ModuleFile)
    (typeName : string) :
  buildBdlIr fuel config = Returned result →
  reachable config M →
  fetch (resolveModuleFile config) M = inr moduleFile →
  typeName ∈ declared_names (text (file moduleFile)) (ast_ moduleFile) →
  resolver moduleFile typeName = ir.Str (M +:+ "." +:+ typeName)
  ∧ is_Some (ir.defs (ir_ result) !! (M +:+ "." +:+ typeName)).
Proof.
  intros Hbuild Hreach Hfetch Hdeclared.
  pose proof (fetch_modulePath _ _ _ Hfetch) as Hpath.
  split.
  - unfold resolver. rewrite Hpath. apply typeNameToPath_local.
    by apply elem_of_localDefNames_declared.
  - destruct (buildBdlIr_Returned _ _ _ Hbuild) as (moduleFiles & Hrun & ->).
    destruct (gather_reachable _ _ _ Hrun) as (Hnodup & _ & _).
    assert (moduleFile ∈ moduleFiles) as Hin.
    { apply (gather_files _ _ _ _ Hrun). by rewrite Hpath. }
    rewrite <- builtDefs_names in Hdeclared.
    apply list_elem_of_fmap in Hdeclared as (def & -> & Hdef).
    apply (buildBdlIr_defPaths_resolve _ _ _ Hbuild M (builtModule moduleFile)).
    + rewrite <- Hpath. by apply foldl_buildModule_lookup.
    + simpl. apply list_elem_of_fmap. exists def. by rewrite Hpath.
Qed.

(** ** The queue is a stack *)

(** X12: the traversal is depth first.  The paths at the end of the
    queue, and everything that they bring in, are dealt with before the
    paths in front of them: the traversal of [queue1 ++ queue2] yields
    what the traversal of [queue2] yields, followed by what the
    traversal of [queue1] yields once the paths of these files are
    visited. *)
Theorem gather_loop_app
    (resolveModuleFile : string → Exn + ResolveModuleFileResult)
    (fuel1 fuel2 : nat) (queue1 queue2 : list string) (visited : gset string)
    (moduleFiles1 moduleFiles2 : list ModuleFile) :
  gather_loop resolveModuleFile fuel2 queue2 visited = Returned moduleFiles2 →
  gather_loop resolveModuleFile fuel1 queue1
    (list_to_set (modulePath <$> moduleFiles2) ∪ visited)
  = Returned moduleFiles1 →
  gather_loop resolveModuleFile (fuel1 + fuel2) (queue1 ++ queue2) visited
  = Returned (moduleFiles2 ++ moduleFiles1).
Proof.
  revert queue2 visited moduleFiles2.
  induction fuel2 as [|fuel2 IH]; intros queue2 visited moduleFiles2; [done|].
  destruct queue2 as [|p queue2 _] using rev_ind.
  { rewrite gather_loop_nil. intros [= <-]. simpl.
    rewrite (left_id_L ∅ (∪)), app_nil_r. intros Hrun1.
    rewrite (gather_loop_fuel_mono _ fuel1); [done|lia|by rewrite Hrun1]. }
  rewrite app_assoc, Nat.add_succ_r, !gather_loop_snoc.
  destruct (decide (p ∈ visited)); [by apply IH|].
  destruct (fetch resolveModuleFile p) as [e|moduleFile] eqn:Hfetch; [done|].
  destruct (gather_loop resolveModuleFile fuel2 _ _) as [rest| |] eqn:Hrun2;
    [|done..].
  intros [= <-] Hrun1. rewrite <- app_assoc.
  rewrite (IH _ _ rest Hrun2); [done|].
  rewrite <- Hrun1. f_equal.
  rewrite fmap_cons, (fetch_modulePath _ _ _ Hfetch). simpl. set_solver.
Qed.

(** ** Failures and the paths that are never asked for *)

Lemma gather_loop_app_threw
    (resolveModuleFile : string → Exn + ResolveModuleFileResult)
    (fuel : nat) (queue1 queue2 : list string) (visited : gset string)
    (e : Exn) :
  gather_loop resolveModuleFile fuel queue2 visited = Threw e →
  gather_loop resolveModuleFile fuel (queue1 ++ queue2) visited = Threw e.
Proof.
  revert queue2 visited.
  induction fuel as [|fuel IH]; intros queue2 visited; [done|].
  destruct queue2 as [|p queue2 _] using rev_ind; [done|].
  rewrite app_assoc, !gather_loop_snoc.
  destruct (decide (p ∈ visited)); [by apply IH|].
  destruct (fetch resolveModuleFile p) as [e'|moduleFile]; [done|].
  destruct (gather_loop resolveModuleFile fuel (queue2 ++ _) _)
    as [rest|e'|] eqn:Hrun; [done| |done].
  intros [= ->]. rewrite <- app_assoc. by rewrite (IH _ _ Hrun).
Qed.

(** X13: a failure aborts the build before the entries in front are
    looked at.  When the build from some entries throws, the build from
    any list that ends with these entries throws the same exception,
    whatever the entries in front of them are and whatever the
    capability would answer for them. *)
Theorem failure_aborts_before_earlier_entries
    (resolveModuleFile : string → Exn + ResolveModuleFileResult)
    (fuel : nat) (earlier entries : list string) (e : Exn) :
  buildBdlIr fuel
    {| entryModulePaths := entries; resolveModuleFile := resolveModuleFile |}
  = Threw e →
  buildBdlIr fuel
    {| entryModulePaths := earlier ++ entries;
       resolveModuleFile := resolveModuleFile |}
  = Threw e.
Proof.
  unfold buildBdlIr, gather. simpl.
  destruct (gather_loop resolveModuleFile fuel entries ∅)
    as [moduleFiles|e'|] eqn:Hrun; [done| |done].
  intros [= ->]. by rewrite (gather_loop_app_threw _ _ earlier _ _ _ Hrun).
Qed.

Lemma gather_loop_ext_reachable
    (resolve1 resolve2 : string → Exn + ResolveModuleFileResult)
    (seeds : list string) (fuel : nat) (queue : list string)
    (visited : gset string) :
  (∀ p, reachable_from resolve1 seeds p → resolve1 p = resolve2 p) →
  (∀ q, q ∈ queue → reachable_from resolve1 seeds q) →
  gather_loop resolve1 fuel queue visited
  = gather_loop resolve2 fuel queue visited.
Proof.
  intros Hext. revert queue visited.
  induction fuel as [|fuel IH]; intros queue visited Hqueue; [done|].
  destruct queue as [|p queue _] using rev_ind; [done|].
  rewrite !gather_loop_snoc.
  assert (Hp : reachable_from resolve1 seeds p) by (apply Hqueue; set_solver).
  assert (Hfetch : fetch resolve1 p = fetch resolve2 p).
  { unfold fetch. by rewrite (Hext p Hp). }
  assert (Himports : module_imports resolve1 p = module_imports resolve2 p).
  { unfold module_imports. by rewrite Hfetch. }
  destruct (decide (p ∈ visited)).
  { apply IH. intros q Hq. apply Hqueue. set_solver. }
  rewrite <- Hfetch, <- Himports.
  destruct (fetch resolve1 p) as [e|moduleFile]; [done|].
  rewrite IH; [done|].
  intros q [Hq|Hq]%elem_of_app; [apply Hqueue; set_solver|].
  by eapply reachable_hop.
Qed.

(** X14: the build asks the capability for reachable paths only.  Two
    capabilities that give the same answer for every path reachable
    from the entries give the same outcome, whatever they answer for
    the other paths: a module that nothing imports cannot make the
    build fail or change its result. *)
Theorem unreachable_paths_are_never_resolved
    (config1 config2 : BuildBdlIrConfig) (fuel : nat) :
  entryModulePaths config1 = entryModulePaths config2 →
  (∀ p, reachable config1 p →
        resolveModuleFile config1 p = resolveModuleFile config2 p) →
  buildBdlIr fuel config1 = buildBdlIr fuel config2.
Proof.
  intros Hentries Hresolve. unfold buildBdlIr, gather.
  rewrite <- Hentries.
  rewrite (gather_loop_ext_reachable _ (resolveModuleFile config2)
             (entryModulePaths config1)); [done|done|].
  intros q Hq. by apply reachable_seed.
Qed.

End MoreFacts.

(** * The example program *)

Import Example.

Lemma example_reachable (p : string) :
  reachable config p → p ∈ ({[ "a"; "b"; "c" ]} : gset string).
Proof.
  apply (reachable_from_closed _ _
           (λ p, p ∈ ({[ "a"; "b"; "c" ]} : gset string))).
  - intros q Hq. simpl in Hq. set_solver.
  - intros q q' Hq Hq'.
    assert (q = "a" ∨ q = "b" ∨ q = "c") as [->|[->| ->]] by set_solver;
      vm_compute in Hq'; set_solver.
Qed.

Lemma example_fetch (p : string) :
  p ∈ ({[ "a"; "b"; "c" ]} : gset string) →
  ∃ moduleFile, fetch (resolveModuleFile config) p = inr moduleFile.
Proof.
  intros Hp.
  assert (p = "a" ∨ p = "b" ∨ p = "c") as [->|[->| ->]] by set_solver;
    eexists; vm_compute; reflexivity.
Qed.

Lemma each_reachable_module_visited_once_witness :
  ∃ fuel moduleFiles result,
    (∀ fuel', fuel ≤ fuel' →
       gather fuel' config = Returned moduleFiles
       ∧ buildBdlIr fuel' config = Returned result)
    ∧ NoDup (modulePath <$> moduleFiles)
    ∧ (∀ p, p ∈ (modulePath <$> moduleFiles) ↔ reachable config p)
    ∧ (∀ moduleFile, moduleFile ∈ moduleFiles →
         fetch (resolveModuleFile config) (modulePath moduleFile)
         = inr moduleFile)
    ∧ (∀ p, is_Some (ir.modules (ir_ result) !! p) ↔ reachable config p)
    ∧ size (ir.modules (ir_ result)) = length moduleFiles.
Proof.
  apply (each_reachable_module_visited_once config {[ "a"; "b"; "c" ]}).
  - exact example_reachable.
  - intros p Hp. apply example_fetch, example_reachable, Hp.
Defined.

Lemma example_build : buildBdlIr 10 config = Returned result.
Proof. vm_compute. reflexivity. Qed.

(** The build of the example returns three modules and two definitions;
    [a.S] is the second declaration of [S], and the field of type [Y] of
    the first one is lost with it. *)
Example example_result :
  dom (ir.modules (ir_ result)) = {[ "a"; "b"; "c" ]}
  ∧ dom (ir.defs (ir_ result)) = {[ "a.S"; "c.X" ]}
  ∧ ir.defs (ir_ result) !! "a.S" = Some second_S
  ∧ ir.defPaths <$> ir.modules (ir_ result) !! "a" = Some ["a.S"; "a.S"].
Proof. vm_compute. done. Qed.

(** In [a], [Y] is the alias of [X] of module [c], a name without
    bracket stays as it is, and [S] is local. *)
Example example_resolver :
  resolver moduleFile_a "Y" = ir.Str "c.X"
  ∧ resolver moduleFile_a "int" = ir.Str "int"
  ∧ resolver moduleFile_a "S" = ir.Str "a.S"
  ∧ resolver moduleFile_a "X" = ir.Str "X".
Proof. vm_compute. done. Qed.

(** Scenario D of the specification, in module [a]. *)
Example example_containers :
  buildType text_types int_array (resolver moduleFile_a)
  = ir.Array (ir.Str "int")
  ∧ buildType text_types int_by_string (resolver moduleFile_a)
    = ir.Dictionary (ir.Str "int") (ir.Str "string").
Proof. vm_compute. done. Qed.

(** A reference to a type called [toString] does not put a string into
    the IR. *)
Example example_inherited_reference :
  buildType text_types toString_reference (resolver moduleFile_a)
  = ir.Plain (ir.ObjectPrototypeMember "toString").
Proof. vm_compute. reflexivity. Qed.

(** [__proto__] is among the names that every object inherits. *)
Example example_inherited_proto :
  resolver moduleFile_a "__proto__" = ir.ObjectPrototypeMember "__proto__".
Proof. vm_compute. reflexivity. Qed.

(** Only the first of the two items from the server to the client is
    used. *)
Example example_socket :
  buildSocket text_socket socket (λ typeName, ir.Str typeName)
  = ir.Socket
      (Some {| ir.socket_item_attributes := [];
               ir.messageType := ir.Plain (ir.Str "A") |})
      None.
Proof. vm_compute. reflexivity. Qed.

(** C2 (the code departs from it): [toString] is neither declared nor
    imported in module [a] of the example, and yet its resolution
    function does not return it unchanged: the test
    [typeName in importedNames] succeeds for a name that the object
    inherits from [Object.prototype], and what comes back is the
    inherited member. *)
Theorem typeNameToPath_returns_inherited_member :
  ("toString" ∉ localDefNames text_a (defStatements ast_a))
  ∧ importedNames (imports text_a ast_a) !! "toString" = None
  ∧ typeNameToPath "a"
      (localDefNames text_a (defStatements ast_a))
      (importedNames (imports text_a ast_a)) "toString"
    = ir.ObjectPrototypeMember "toString"
  ∧ typeNameToPath "a"
      (localDefNames text_a (defStatements ast_a))
      (importedNames (imports text_a ast_a)) "toString"
    ≠ ir.Str "toString".
Proof.
  split_and!.
  - apply (bool_decide_eq_false_1 (_ ∈ _)). vm_compute. reflexivity.
  - vm_compute. reflexivity.
  - vm_compute. reflexivity.
  - vm_compute. discriminate.
Qed.

(** Counterexample to C3 as it is stated, [import c { X as Y }] of module [a]:
    the specified alias map binds both [X] and [Y] to [c.X], the map of
    the builder binds [Y] alone. *)
Lemma importedNames_differs_from_specified_alias_map :
  specified_alias_map (imports text_a ast_a) !! "X" = Some "c.X"
  ∧ importedNames (imports text_a ast_a) !! "X" = None
  ∧ importedNames (imports text_a ast_a) !! "Y" = Some "c.X"
  ∧ importedNames (imports text_a ast_a)
    ≠ specified_alias_map (imports text_a ast_a).
Proof.
  split_and!; [vm_compute; reflexivity..|].
  intros Heq. apply (f_equal (λ m, m !! "X")) in Heq.
  vm_compute in Heq. discriminate.
Qed.

Lemma example_failing_reachable (p : string) :
  reachable failing_config p → p ∈ ({[ "a"; "b"; "c"; "d" ]} : gset string).
Proof.
  apply (reachable_from_closed _ _
           (λ p, p ∈ ({[ "a"; "b"; "c"; "d" ]} : gset string))).
  - intros q Hq. simpl in Hq. set_solver.
  - intros q q' Hq Hq'.
    assert (q = "a" ∨ q = "b" ∨ q = "c" ∨ q = "d") as [->|[->|[->| ->]]]
      by set_solver;
      vm_compute in Hq'; set_solver.
Qed.

Lemma build_is_all_or_nothing_witness :
  ∃ fuel,
    (∀ fuel', fuel ≤ fuel' →
       buildBdlIr fuel' failing_config = buildBdlIr fuel failing_config)
    ∧ match buildBdlIr fuel failing_config with
      | Threw e =>
          ∃ p, reachable failing_config p
               ∧ fetch (resolveModuleFile failing_config) p = inl e
      | Returned result =>
          ∀ p, reachable failing_config p →
               ∃ moduleFile,
                 fetch (resolveModuleFile failing_config) p = inr moduleFile
                 ∧ asts result !! p = Some (ast_ moduleFile)
                 ∧ ir.modules (ir_ result) !! p = Some (builtModule moduleFile)
                 ∧ (∀ def, def ∈ builtDefs moduleFile →
                           is_Some (ir.defs (ir_ result) !! defPath p def))
      | OutOfFuel => False
      end
    ∧ ((∃ p e, reachable failing_config p
               ∧ fetch (resolveModuleFile failing_config) p = inl e) →
       ∃ e, buildBdlIr fuel failing_config = Threw e).
Proof.
  apply (build_is_all_or_nothing failing_config {[ "a"; "b"; "c"; "d" ]}).
  exact example_failing_reachable.
Defined.

(** The build of the failing program throws what resolving [d] raised. *)
Example example_failing_build :
  buildBdlIr 10 failing_config = Threw "not found".
Proof. vm_compute. reflexivity. Qed.

Lemma defPaths_are_keys_of_defs_witness :
  is_Some (ir.defs (ir_ result) !! "a.S").
Proof.
  apply (defPaths_are_keys_of_defs config 10 result "a"
           (builtModule moduleFile_a) "a.S").
  - vm_compute. reflexivity.
  - vm_compute. reflexivity.
  - apply (bool_decide_unpack _). vm_compute. exact I.
Defined.

Lemma example_names (p : string) (moduleFile : ModuleFile) (name : string) :
  fetch (resolveModuleFile config) p = inr moduleFile →
  name ∈ declared_names (text (file moduleFile)) (ast_ moduleFile) →
  has_dot name = false.
Proof.
  unfold fetch. simpl. unfold resolve.
  repeat case_decide; subst; vm_compute; intros [= <-] Hname;
    repeat (apply elem_of_cons in Hname as [->|Hname]; [reflexivity|]);
    by apply elem_of_nil in Hname.
Qed.

Lemma last_definition_wins_witness :
  ∃ fuel result,
    (∀ fuel', fuel ≤ fuel' → buildBdlIr fuel' config = Returned result)
    ∧ ir.defs (ir_ result) !! ("a" +:+ "." +:+ ir.name second_S)
      = Some second_S.
Proof.
  apply (last_definition_wins config {[ "a"; "b"; "c" ]} "a" moduleFile_a
           [ import (sp 7 8)
               [ {| ast.item_name := sp 11 12;
                    ast.alias := Some {| ast.alias_name := sp 16 17 |} |} ];
             struct (sp 27 28)
               [ field (sp 31 32)
                   {| ast.valueType := sp 34 35; ast.container := None |} ] ]
           (struct (sp 45 46)
              [ field (sp 49 50)
                  {| ast.valueType := sp 52 55;
                     ast.container := Some {| ast.keyType := None |} |} ])
           []).
  - exact example_reachable.
  - intros p Hp. apply example_fetch, example_reachable, Hp.
  - exact example_names.
  - apply reachable_seed. simpl. by left.
  - vm_compute. reflexivity.
  - reflexivity.
  - vm_compute. reflexivity.
  - intros later name Hlater. by apply elem_of_nil in Hlater.
Defined.

Lemma defPaths_keep_duplicates_witness :
  ∃ moduleFile,
    fetch (resolveModuleFile config) "a" = inr moduleFile
    ∧ ir.defPaths (builtModule moduleFile_a)
      = (λ name, "a" +:+ "." +:+ name)
          <$> declared_names (text (file moduleFile)) (ast_ moduleFile)
    ∧ ∀ name,
        occurrences ("a" +:+ "." +:+ name) (ir.defPaths (builtModule moduleFile_a))
        = occurrences name
            (declared_names (text (file moduleFile)) (ast_ moduleFile))
        ∧ (0 < occurrences name
                 (declared_names (text (file moduleFile)) (ast_ moduleFile)) →
           is_Some (ir.defs (ir_ result) !! ("a" +:+ "." +:+ name))).
Proof.
  apply (defPaths_keep_duplicates config 10 result "a" (builtModule moduleFile_a)).
  - vm_compute. reflexivity.
  - vm_compute. reflexivity.
Defined.

(** [S] is declared twice in [a], and [a.S] is listed twice. *)
Example example_duplicates :
  occurrences "S" (declared_names text_a ast_a) = 2
  ∧ occurrences "a.S" (ir.defPaths (builtModule moduleFile_a)) = 2.
Proof. vm_compute. done. Qed.

(** * The further properties on the example program *)

Lemma importedNames_last_binding_wins_witness :
  importedNames ([import_S_from_b] ++ import_T_as_S_from_c :: [])
    !! local_name T_as_S
  = Some (ir.modulePath import_T_as_S_from_c +:+ "." +:+ ir.item_name T_as_S).
Proof.
  apply (importedNames_last_binding_wins [import_S_from_b]
           import_T_as_S_from_c [] [] T_as_S
           [ {| ir.item_name := "U"; ir.as_ := None |} ]).
  - reflexivity.
  - intros later ->%list_elem_of_singleton. vm_compute. discriminate.
  - intros laterStatement later Hin. by apply elem_of_nil in Hin.
Defined.

(** The binding of the first declaration is overwritten: [S] is [c.T]. *)
Example example_last_binding :
  importedNames [import_S_from_b; import_T_as_S_from_c]
  = {[ "S" := "c.T"; "U" := "c.U" ]}.
Proof. vm_compute. reflexivity. Qed.

Lemma example_socket_directions (sender receiver : string)
    (item item' : ast.SocketItem) :
  (sender = "server" ∧ receiver = "client")
  ∨ (sender = "client" ∧ receiver = "server") →
  item ∈ ast.socket_items socket_server_first →
  item' ∈ ast.socket_items socket_server_first →
  directed text_socket sender receiver item →
  directed text_socket sender receiver item' →
  item = item'.
Proof.
  intros Hroles Hitem Hitem' Hd Hd'. simpl in Hitem, Hitem'.
  repeat (apply elem_of_cons in Hitem as [->|Hitem]);
    [| |by apply elem_of_nil in Hitem];
    (repeat (apply elem_of_cons in Hitem' as [->|Hitem']);
       [| |by apply elem_of_nil in Hitem']);
    try reflexivity;
    vm_compute in Hd, Hd'; destruct Hd as [<- <-], Hd' as [E1 E2];
    destruct Hroles as [[? ?]|[? ?]]; discriminate.
Qed.

Lemma buildSocket_order_irrelevant_witness :
  buildSocket text_socket socket_server_first (λ typeName, ir.Str typeName)
  = buildSocket text_socket socket_client_first (λ typeName, ir.Str typeName).
Proof.
  apply (buildSocket_order_irrelevant text_socket
           socket_server_first socket_client_first).
  - apply perm_swap.
  - intros item item'. apply example_socket_directions. by left.
  - intros item item'. apply example_socket_directions. by right.
Defined.

(** Both channels are there, whichever item comes first. *)
Example example_socket_both :
  buildSocket text_socket socket_client_first (λ typeName, ir.Str typeName)
  = ir.Socket
      (Some {| ir.socket_item_attributes := [];
               ir.messageType := ir.Plain (ir.Str "A") |})
      (Some {| ir.socket_item_attributes := [];
               ir.messageType := ir.Plain (ir.Str "B") |}).
Proof. vm_compute. reflexivity. Qed.

Lemma buildDef_depends_on_mentioned_names_witness :
  buildDef text_a second_S_statement (resolver moduleFile_a)
  = buildDef text_a second_S_statement (λ typeName, ir.Str typeName).
Proof.
  apply (buildDef_depends_on_mentioned_names text_a second_S_statement).
  intros typeName Hin. vm_compute in Hin.
  apply list_elem_of_singleton in Hin as ->. vm_compute. reflexivity.
Defined.

Lemma gather_loop_skips_visited_witness :
  gather_loop offline 3 ["a"; "b"] {[ "a"; "b" ]} = Returned [].
Proof.
  apply (gather_loop_skips_visited offline 3 ["a"; "b"] {[ "a"; "b" ]}).
  - intros p Hp. set_solver.
  - simpl. lia.
Defined.

Lemma asts_hold_the_parsed_trees_witness :
  asts result !! "a" = Some ast_a
  ↔ reachable config "a"
    ∧ ∃ resolveModuleFileResult,
        resolveModuleFile config "a" = inr resolveModuleFileResult
        ∧ parseBdl (text resolveModuleFileResult) = inr ast_a.
Proof.
  apply (asts_hold_the_parsed_trees config 10 result "a" ast_a).
  exact example_build.
Defined.

Lemma defs_entries_come_from_modules_witness :
  ∃ M moduleFile module,
    reachable config M
    ∧ fetch (resolveModuleFile config) M = inr moduleFile
    ∧ second_S ∈ builtDefs moduleFile
    ∧ "a.S" = M +:+ "." +:+ ir.name second_S
    ∧ ir.modules (ir_ result) !! M = Some module
    ∧ "a.S" ∈ ir.defPaths module.
Proof.
  apply (defs_entries_come_from_modules config 10 result "a.S" second_S).
  - exact example_build.
  - vm_compute. reflexivity.
Defined.

Lemma example_reversed_build :
  buildBdlIr 10 reversed_config = Returned reversed_result.
Proof. vm_compute. reflexivity. Qed.

(** The two traversals yield the modules in different orders. *)
Example example_traversal_orders :
  gather 10 config
  = Returned [moduleFile_b; moduleFile_c; moduleFile_a]
  ∧ gather 10 reversed_config
    = Returned [moduleFile_a; moduleFile_c; moduleFile_b].
Proof. vm_compute. done. Qed.

Lemma entry_order_keeps_the_entries_witness :
  (∀ p, asts result !! p = asts reversed_result !! p)
  ∧ (∀ p, ir.modules (ir_ result) !! p
          = ir.modules (ir_ reversed_result) !! p)
  ∧ (∀ path,
       ir.defs (ir_ result) !! path = ir.defs (ir_ reversed_result) !! path).
Proof.
  apply (entry_order_keeps_the_entries config reversed_config 10 10).
  - reflexivity.
  - intros p. simpl. set_solver.
  - exact example_names.
  - exact example_build.
  - exact example_reversed_build.
Defined.

Lemma local_references_resolve_witness :
  resolver moduleFile_a "S" = ir.Str ("a" +:+ "." +:+ "S")
  ∧ is_Some (ir.defs (ir_ result) !! ("a" +:+ "." +:+ "S")).
Proof.
  apply (local_references_resolve config 10 result "a" moduleFile_a "S").
  - exact example_build.
  - apply reachable_seed. simpl. by left.
  - vm_compute. reflexivity.
  - apply (bool_decide_unpack _). vm_compute. exact I.
Defined.

Lemma gather_loop_app_witness :
  gather_loop (resolveModuleFile config) (5 + 5) (["b"] ++ ["a"]) ∅
  = Returned ([moduleFile_a; moduleFile_c] ++ [moduleFile_b]).
Proof.
  apply (gather_loop_app (resolveModuleFile config) 5 5 ["b"] ["a"] ∅
           [moduleFile_b] [moduleFile_a; moduleFile_c]).
  - vm_compute. reflexivity.
  - vm_compute. reflexivity.
Defined.

Lemma failure_aborts_before_earlier_entries_witness :
  buildBdlIr 10
    {| entryModulePaths := ["a"; "b"] ++ ["d"];
       resolveModuleFile := resolveModuleFile config |}
  = Threw "not found".
Proof.
  apply (failure_aborts_before_earlier_entries
           (resolveModuleFile config) 10 ["a"; "b"] ["d"]).
  vm_compute. reflexivity.
Defined.

Lemma unreachable_paths_are_never_resolved_witness :
  buildBdlIr 10 config = buildBdlIr 10 config_with_z.
Proof.
  apply (unreachable_paths_are_never_resolved config config_with_z 10).
  - reflexivity.
  - intros p Hp%example_reachable. simpl.
    rewrite decide_False; [done|]. set_solver.
Defined.
